(** * REANA-Workflow-Engine-Serial utilities: a shallow embedding

    This development embeds [reana_workflow_engine_serial/utils.py] in Rocq
    and states the properties of its functions as theorems.

    Conventions of the embedding:
    - a step (a JSON object with a ["name"] and a ["commands"] entry) is a
      record; Python's [==] on steps and on commands is structural
      equality, hence Leibniz equality decided by [bool_decide];
    - an exception raised by the code is a value [inl e] of [exn + A];
    - calls on external collaborators (the message publisher, the job
      controller client, the operating system) are explicit state passing;
    - [logging] calls do not influence any result and are left out. *)

From Stdlib Require Import Ascii.
From stdpp Require Import base option list strings gmap.

Set Warnings "-register-all".

Open Scope string_scope.
Open Scope list_scope.
Open Scope nat_scope.

(** ** Python primitives used by the module *)

Inductive exn : Type :=
  | IndexError
  | KeyError (key : string)
  | TypeError
  | FileExistsError (path : string)
  | OSError (msg : string).

Definition result (A : Type) : Type := exn + A.

Definition is_error {A} (r : result A) : bool :=
  match r with inl _ => true | inr _ => false end.

(** Truth value of an optional string argument ([None] and [""] are falsy). *)
Definition truthy_str (o : option string) : bool :=
  match o with
  | Some s => negb (bool_decide (s = ""))
  | None => false
  end.

(** [enumerate(l, start)] *)
Fixpoint enumerate_from {A} (start : nat) (l : list A) : list (nat * A) :=
  match l with
  | [] => []
  | x :: l' => (start, x) :: enumerate_from (S start) l'
  end.

Definition enumerate {A} (l : list A) : list (nat * A) := enumerate_from 0 l.

(** [next(iterator, default)] on the list of the values the iterator yields. *)
Definition next {A} (it : list A) (d : A) : A := default d (head it).

(** [l[a:b]] for non-negative [a] and [b]. *)
Definition py_slice {A} (a b : nat) (l : list A) : list A := drop a (take b l).

(** [l[-1]] *)
Definition last_item {A} (l : list A) : result A :=
  match last l with
  | Some x => inr x
  | None => inl IndexError
  end.

(** ** Data model *)

(** A step of a serial workflow: [step["name"]] and [step["commands"]]. *)
Record step : Type := Step {
  name : string;
  commands : list string;
}.

#[global] Instance step_eq_dec : EqDecision step.
Proof. solve_decision. Defined.

(** The workflow specification: [workflow_json["steps"]]. *)
Record workflow : Type := Workflow {
  steps : list step;
}.

(** ** [get_targeted_workflow_steps] *)

Section targeted_steps.
(** [str.lower], left abstract: every result below holds for any
    case-folding function. *)
Variable lower : string → string.

(** [step["name"].lower() == wanted.lower()] *)
Definition name_matches (wanted : string) (s : step) : bool :=
  bool_decide (lower (name s) = lower wanted).

Definition from_step_idx (workflow_json : workflow) (from_step : option string) : nat :=
  match from_step with
  | Some f =>
      if truthy_str from_step then
        next (map (λ '(i, _), i)
                (filter (λ '(_, s), name_matches f s = true)
                   (enumerate (steps workflow_json))))
             0
      else 0
  | None => 0
  end.

Definition target_step_idx (workflow_json : workflow) (target_step : option string) : nat :=
  let target_step_idx := length (steps workflow_json) in
  match target_step with
  | Some t =>
      if truthy_str target_step then
        next (map (λ '(i, _), i + 1)
                (filter (λ '(_, s), name_matches t s = true)
                   (enumerate (steps workflow_json))))
             target_step_idx
      else target_step_idx
  | None => target_step_idx
  end.

Definition get_targeted_workflow_steps
    (workflow_json : workflow) (target_step from_step : option string) : list step :=
  let from_step_idx := from_step_idx workflow_json from_step in
  let target_step_idx := target_step_idx workflow_json target_step in
  if bool_decide (from_step_idx ≤ target_step_idx) then
    py_slice from_step_idx target_step_idx (steps workflow_json)
  else
    steps workflow_json.

(** *** The selection as the specification words it *)

(** Position of the first step satisfying [p]. *)
Fixpoint first_position (p : step → bool) (l : list step) : option nat :=
  match l with
  | [] => None
  | s :: l' => if p s then Some 0 else S <$> first_position p l'
  end.

(** A name is set when it is given and not empty. *)
Definition name_set (o : option string) : option string :=
  match o with
  | Some s => if bool_decide (s = "") then None else Some s
  | None => None
  end.

(** [from_index]: position of the first step whose name matches
    [from_step]; 0 if unset or not found. *)
Definition from_index (l : list step) (from_step : option string) : nat :=
  match name_set from_step with
  | Some f => default 0 (first_position (name_matches f) l)
  | None => 0
  end.

(** [target_index]: one past the position of the first step whose name
    matches [target_step]; the full length if unset or not found. *)
Definition target_index (l : list step) (target_step : option string) : nat :=
  match name_set target_step with
  | Some t => default (length l) (S <$> first_position (name_matches t) l)
  | None => length l
  end.
End targeted_steps.

(** ** The error monad and the state-and-error monad *)

#[global] Instance result_ret : MRet result := λ A a, inr a.
#[global] Instance result_bind : MBind result := λ A B k m,
  match m with
  | inl e => inl e
  | inr a => k a
  end.

(** A computation on a state [S] that returns a value or raises. *)
Definition M (S A : Type) : Type := S → result A * S.

#[global] Instance M_ret {S} : MRet (M S) := λ A a s, (inr a, s).
#[global] Instance M_bind {S} : MBind (M S) := λ A B k m s,
  match m s with
  | (inl e, s') => (inl e, s')
  | (inr a, s') => k a s'
  end.

(** A pure, possibly failing, expression evaluated inside a computation. *)
Definition lift {S A} (r : result A) : M S A := λ s, (r, s).

(** ** The message publisher *)

(** [{"total": n, "job_ids": [...]}] *)
Record jobs : Type := Jobs {
  total : nat;
  job_ids : list string;
}.

(** The progress part of a message. [build_progress_message] belongs to
    [reana_commons]; its result is represented by the keyword arguments it
    is called with ([None] for an argument not given, or given as [None]). *)
Record progress : Type := build_progress_message {
  kw_total : option jobs;
  kw_running : option jobs;
  kw_finished : option jobs;
  kw_failed : option jobs;
  kw_cached : option jobs;
}.

(** [build_caching_info_message] of [reana_commons], likewise represented
    by its arguments. *)
Record caching_info (job_spec : Type) : Type := build_caching_info_message {
  ci_job_spec : job_spec;
  ci_job_id : string;
  ci_workflow_workspace : string;
  ci_step : step;
  ci_cache_dir_path : string;
}.
Arguments build_caching_info_message {job_spec}.

(** The [message] dictionary: an absent key is [None]. The value of
    ["pod_name"] is what [os.getenv] returned, itself optional. *)
Record message (job_spec : Type) : Type := Message {
  msg_progress : option progress;
  msg_caching_info : option (caching_info job_spec);
  msg_pod_name : option (option string);
}.
Arguments Message {job_spec}.
Arguments msg_progress {job_spec}.
Arguments msg_caching_info {job_spec}.
Arguments msg_pod_name {job_spec}.

(** One call [publisher.publish_workflow_status(workflow_uuid, status, message)]. *)
Record event (job_spec : Type) : Type := Event {
  ev_workflow_uuid : string;
  ev_status : nat;
  ev_message : message job_spec;
}.
Arguments Event {job_spec}.
Arguments ev_workflow_uuid {job_spec}.
Arguments ev_status {job_spec}.
Arguments ev_message {job_spec}.

(** The publisher is the sequence of the events published so far. *)
Definition publisher (job_spec : Type) : Type := list (event job_spec).

Definition publish_workflow_status {job_spec}
    (workflow_uuid : string) (status : nat) (msg : message job_spec)
  : M (publisher job_spec) unit :=
  λ published, (inr (), published ++ [Event workflow_uuid status msg]).

Section publishers.
Context {job_spec : Type}.
(** [os.environ], read by [os.getenv]. *)
Variable environ : gmap string string.

Definition os_getenv (key : string) : option string := environ !! key.

Definition publish_cache_copy
    (job_id : string) (step : step) (expanded_workflow_json : workflow)
    (command : string) (workflow_uuid : string)
  : M (publisher job_spec) unit :=
  last_step ← lift (last_item (steps expanded_workflow_json));
  is_last ←
    (if bool_decide (step = last_step) then
       last_command ← lift (last_item (commands step));
       mret (bool_decide (command = last_command))
     else mret false);
  let workflow_status := if (is_last : bool) then 2 else 1 in
  let finished_jobs := {| total := 1; job_ids := [job_id] |} in
  publish_workflow_status workflow_uuid workflow_status
    {| msg_progress :=
         Some (build_progress_message
                 None None (Some finished_jobs) None (Some finished_jobs));
       msg_caching_info := None;
       msg_pod_name := None |}.

Definition publish_job_submission
    (step_number : nat) (command : string) (workflow_json : workflow)
    (job_id : string) (workflow_uuid : string)
  : M (publisher job_spec) unit :=
  let running_jobs := {| total := 1; job_ids := [job_id] |} in
  publish_workflow_status workflow_uuid 1
    {| msg_progress :=
         Some (build_progress_message None (Some running_jobs) None None None);
       msg_caching_info := None;
       msg_pod_name := None |}.

Definition publish_job_success
    (job_id : string) (job_spec_ : job_spec) (workflow_workspace : string)
    (expanded_workflow_json : workflow) (step : step) (command : string)
    (workflow_uuid : string) (cache_dir_path : option string)
  : M (publisher job_spec) unit :=
  let finished_jobs := {| total := 1; job_ids := [job_id] |} in
  last_step ← lift (last_item (steps expanded_workflow_json));
  is_last ←
    (if bool_decide (step = last_step) then
       last_command ← lift (last_item (commands step));
       mret (bool_decide (command = last_command))
     else mret false);
  let workflow_status := if (is_last : bool) then 2 else 1 in
  let progress := build_progress_message None None (Some finished_jobs) None None in
  let caching_info :=
    match cache_dir_path with
    | Some path =>
        if truthy_str cache_dir_path then
          Some (build_caching_info_message
                  job_spec_ job_id workflow_workspace step path)
        else None
    | None => None
    end in
  publish_workflow_status workflow_uuid workflow_status
    {| msg_progress := Some progress;
       msg_caching_info := caching_info;
       msg_pod_name := Some (os_getenv "WORKFLOW_POD_NAME") |}.

Definition publish_workflow_start
    (workflow_steps : list step) (workflow_uuid : string)
  : M (publisher job_spec) unit :=
  let total_commands :=
    foldl (λ total_commands step, total_commands + length (commands step))
          0 workflow_steps in
  let total_jobs := {| total := total_commands; job_ids := [] |} in
  publish_workflow_status workflow_uuid 1
    {| msg_progress :=
         Some (build_progress_message (Some total_jobs) None None None None);
       msg_caching_info := None;
       msg_pod_name := Some (os_getenv "WORKFLOW_POD_NAME") |}.

Definition publish_workflow_failure
    (job_id : option string) (workflow_uuid : string)
  : M (publisher job_spec) unit :=
  let failed_jobs :=
    match job_id with
    | Some id =>
        if truthy_str job_id then Some {| total := 1; job_ids := [id] |}
        else None
    | None => None
    end in
  publish_workflow_status workflow_uuid 3
    {| msg_progress :=
         Some (build_progress_message None None None failed_jobs None);
       msg_caching_info := None;
       msg_pod_name := None |}.
End publishers.

(** ** The cache lookup *)

(** A parsed JSON document, as [http_response.json()] returns it (numbers
    are restricted to integers). *)
Inductive json : Type :=
  | JNull
  | JBool (b : bool)
  | JNumber (n : Z)
  | JString (s : string)
  | JArray (items : list json)
  | JObject (members : gmap string json).

(** Truth value of a Python object. *)
Definition truthy (v : json) : bool :=
  match v with
  | JNull => false
  | JBool b => b
  | JNumber n => negb (bool_decide (n = 0%Z))
  | JString s => negb (bool_decide (s = ""))
  | JArray items => negb (bool_decide (length items = 0))
  | JObject members => negb (bool_decide (size members = 0))
  end.

(** [v[key]] for a string key: only a dictionary can be subscripted by a
    string, and the key must be present. *)
Definition subscript (v : json) (key : string) : result json :=
  match v with
  | JObject members =>
      match members !! key with
      | Some x => inr x
      | None => inl (KeyError key)
      end
  | _ => inl TypeError
  end.

Section cache_lookup.
Context {job_spec : Type}.
(** [rjc_api_client.check_if_cached(...)] followed by [.json()] on its
    response: the parsed body, or the exception either call raised. *)
Variable check_if_cached_json : job_spec → step → string → result json.

Definition check_cache
    (job_spec_copy : job_spec) (step : step) (workflow_workspace : string)
  : result json :=
  result ← check_if_cached_json job_spec_copy step workflow_workspace;
  cached ← subscript result "cached";
  if truthy cached then mret result else mret (JObject ∅).
End cache_lookup.

(** ** The operating system *)

(** [os.path.join] of [posixpath], one component at a time. *)
Fixpoint ends_with_sep (path : string) : bool :=
  match path with
  | EmptyString => false
  | String c EmptyString => bool_decide (String c EmptyString = "/")
  | String _ rest => ends_with_sep rest
  end.

Definition join_component (path b : string) : string :=
  if String.prefix "/" b then b
  else if bool_decide (path = "") || ends_with_sep path then path +:+ b
  else path +:+ "/" +:+ b.

Definition os_path_join (a : string) (p : list string) : string :=
  foldl join_component a p.

Definition os_pardir : string := "..".

(** The services of the operating system the module calls, on a state
    [world] (the file system and the process). *)
Class OS : Type := {
  world : Type;
  (** [os.system(command)]: runs the command in a shell, returns its status *)
  os_system : string → world → nat * world;
  (** [os.path.abspath(path)] *)
  os_path_abspath : string → world → string;
  (** [os.path.exists(path)] *)
  os_path_exists : string → world → bool;
  (** [os.makedirs(path)] (with [exist_ok=False]) *)
  os_makedirs : string → M world unit;
  (** [distutils.dir_util.copy_tree(src, dst)]: the names of the files copied *)
  copy_tree : string → string → M world (list string);
}.

(** What the Python documentation promises of [os.makedirs] when
    [exist_ok] is false: it raises [FileExistsError] if the target exists. *)
Class OSLaws (os : OS) : Prop := {
  os_makedirs_exists path w :
    os_path_exists path w = true →
    os_makedirs path w = (inl (FileExistsError path), w);
}.

Section cache_copies.
Context {os : OS}.

Definition copy_workspace_from_cache
    (result_path workflow_workspace : string) : M world unit :=
  λ w,
    let '(_, w') :=
      os_system ("cp -R " +:+ os_path_join result_path ["*"]
                 +:+ " " +:+ workflow_workspace) w in
    (inr (), w').

Definition copy_workspace_to_cache
    (job_id workflow_workspace : string) : M world string :=
  λ w,
    let cache_dir_path :=
      os_path_abspath
        (os_path_join workflow_workspace [os_pardir; "archive"; job_id]) w in
    (_ ← os_makedirs cache_dir_path;
     _ ← copy_tree workflow_workspace cache_dir_path;
     mret cache_dir_path) w.
End cache_copies.

(** ** Polling the job controller *)

(** The object [rjc_api_client.check_status] returns: [job_status.status]. *)
Record JobStatus : Type := Build_JobStatus {
  status : string;
}.

(** What the process does to the outside while polling. *)
Inductive io_event (duration : Type) : Type :=
  | CheckStatus (job_id : string)
  | Sleep (seconds : duration).
Arguments CheckStatus {duration}.
Arguments Sleep {duration}.

Section polling.
Context {duration : Type}.
(** The constant of [config], not computed by this module. *)
Variable JOB_STATUS_POLLING_INTERVAL : duration.

Definition terminal (job_status : JobStatus) : bool :=
  bool_decide (status job_status ∈ ["finished"; "failed"; "stopped"]).

(** The [while] loop, on the answers the job controller will give to the
    coming [check_status] calls (a value or a raised exception) and the
    trace of events so far. [None]: the loop is still running when the
    answers are used up. *)
Fixpoint poll_loop (job_id : string) (job_status : JobStatus)
    (answers : list (result JobStatus))
    (trace : list (io_event duration))
  : option (result JobStatus * list (io_event duration)) :=
  if terminal job_status then Some (inr job_status, trace)
  else
    match answers with
    | [] => None
    | inl e :: _ => Some (inl e, trace ++ [CheckStatus job_id])
    | inr job_status' :: answers' =>
        poll_loop job_id job_status' answers'
          (trace ++ [CheckStatus job_id; Sleep JOB_STATUS_POLLING_INTERVAL])
    end.

Definition poll_job_status (job_id : string)
    (answers : list (result JobStatus))
  : option (result JobStatus * list (io_event duration)) :=
  match answers with
  | [] => None
  | inl e :: _ => Some (inl e, [CheckStatus job_id])
  | inr job_status :: answers' =>
      poll_loop job_id job_status answers' [CheckStatus job_id]
  end.
End polling.

(** ** A small POSIX file system

    An instance of [OS] on which the functions above can be run: the file
    system is a finite map from normalised absolute paths to nodes.
    Permissions, symbolic links and the names [copy_tree] skips on NFS are
    not part of it. *)

Module Posix.
Inductive node : Type :=
  | Dir
  | File (content : string).

#[global] Instance node_eq_dec : EqDecision node.
Proof. solve_decision. Defined.

Record fs : Type := FS {
  cwd : string;
  nodes : gmap string node;
}.

(** [s.split(sep)] for a separator of one character *)
Fixpoint split_on (sep : string) (s : string) : list string :=
  match s with
  | EmptyString => [""]
  | String c rest =>
      if bool_decide (String c EmptyString = sep) then "" :: split_on sep rest
      else
        match split_on sep rest with
        | [] => [String c EmptyString]
        | h :: t => String c h :: t
        end
  end.

Definition split_sep (s : string) : list string := split_on "/" s.

(** ["/".join(comps)] *)
Fixpoint join_sep (comps : list string) : string :=
  match comps with
  | [] => ""
  | [c] => c
  | c :: rest => c +:+ "/" +:+ join_sep rest
  end.

(** The loop of [posixpath.normpath]; [new_comps] is kept reversed. *)
Fixpoint norm_comps (absolute : bool) (comps new_comps : list string) : list string :=
  match comps with
  | [] => reverse new_comps
  | comp :: rest =>
      if bool_decide (comp = "") || bool_decide (comp = ".") then
        norm_comps absolute rest new_comps
      else if negb (bool_decide (comp = ".."))
              || (negb absolute && bool_decide (new_comps = []))
              || bool_decide (head new_comps = Some "..") then
        norm_comps absolute rest (comp :: new_comps)
      else
        norm_comps absolute rest (tail new_comps)
  end.

Definition normpath (path : string) : string :=
  if bool_decide (path = "") then "."
  else
    let initial_slashes :=
      if String.prefix "/" path then
        if String.prefix "//" path && negb (String.prefix "///" path)
        then "//" else "/"
      else "" in
    let comps :=
      norm_comps (negb (bool_decide (initial_slashes = "")))
                 (split_sep path) [] in
    let path := initial_slashes +:+ join_sep comps in
    if bool_decide (path = "") then "." else path.

Definition abspath (path : string) (w : fs) : string :=
  if String.prefix "/" path then normpath path
  else normpath (os_path_join (cwd w) [path]).

Definition exists_ (path : string) (w : fs) : bool :=
  bool_decide (is_Some (nodes w !! path)).

Definition isdir (path : string) (w : fs) : bool :=
  bool_decide (nodes w !! path = Some Dir).

(** The proper ancestors of a normalised absolute path, outermost first. *)
Definition ancestors (path : string) : list string :=
  let comps := filter (λ c, c ≠ "") (split_sep path) in
  map (λ k, "/" +:+ join_sep (take k comps)) (seq 0 (length comps)).

Definition is_file (o : option node) : bool :=
  match o with
  | Some (File _) => true
  | _ => false
  end.

Definition mkdir_missing (path : string) (m : gmap string node) : gmap string node :=
  match m !! path with
  | Some _ => m
  | None => <[path := Dir]> m
  end.

Definition makedirs (path : string) : M fs unit :=
  λ w,
    if exists_ path w then (inl (FileExistsError path), w)
    else if existsb (λ a, is_file (nodes w !! a)) (ancestors path) then
      (inl (OSError "Not a directory"), w)
    else
      (inr (),
       {| cwd := cwd w;
          nodes := <[path := Dir]> (foldr mkdir_missing (nodes w) (ancestors path)) |}).

(** [Some rest] when [s] is [pre] followed by [rest]. *)
Fixpoint strip_prefix (pre s : string) : option string :=
  match pre, s with
  | EmptyString, _ => Some s
  | String a pre', String b s' =>
      if bool_decide (a = b) then strip_prefix pre' s' else None
  | _, _ => None
  end.

(** [dir/rel], for a normalised [dir]. *)
Definition child (dir rel : string) : string :=
  if bool_decide (dir = "/") then "/" +:+ rel else dir +:+ "/" +:+ rel.

(** The entries strictly below [dir], with their paths relative to it. *)
Definition entries_below (dir : string) (w : fs) : list (string * node) :=
  omap (λ '(path, n),
          match strip_prefix (child dir "") path with
          | Some rel => if bool_decide (rel = "") then None else Some (rel, n)
          | None => None
          end)
       (map_to_list (nodes w)).

(** The tree rooted at [src]: its nodes with their paths relative to
    [src], the root under the empty path. *)
Definition tree_at (src : string) (w : fs) : list (string * node) :=
  match nodes w !! src with
  | Some n => ("", n) :: entries_below src w
  | None => []
  end.

Definition target (dst rel : string) : string :=
  if bool_decide (rel = "") then dst else child dst rel.

(** A directory is not written over a file, nor a file over a directory. *)
Definition clashes (n : node) (o : option node) : bool :=
  match n, o with
  | Dir, Some (File _) => true
  | File _, Some Dir => true
  | _, _ => false
  end.

(** Copies the tree rooted at [src] onto [dst]. The nodes that clash with
    what is at their target, and the nodes below them, are left out; the
    flag tells whether the whole tree was copied. *)
Definition copy_onto (src dst : string) (w : fs) (acc : bool * gmap string node)
  : bool * gmap string node :=
  let '(ok, m) := acc in
  let tree := tree_at src w in
  let clashing :=
    filter (λ '(rel, n), clashes n (m !! target dst rel) = true) tree in
  let blocked rel :=
    existsb (λ '(c, _), bool_decide (c = rel) || bool_decide (c = "")
                        || String.prefix (c +:+ "/") rel)
            clashing in
  (ok && negb (bool_decide (tree = [])) && bool_decide (clashing = []),
   foldr (λ '(rel, n) m', if blocked rel then m' else <[target dst rel := n]> m')
         m tree).

(** [copy_tree] raises when [src] is not a directory or a node cannot be
    copied; the model then keeps the nodes that could be. Paths are looked
    up as they are given, so they are expected normalised; the error of
    [distutils] is rendered as [OSError]. *)
Definition copy_tree_fs (src dst : string) : M fs (list string) :=
  λ w,
    if negb (isdir src w) then
      (inl (OSError ("cannot copy tree '" +:+ src +:+ "': not a directory")), w)
    else
      let '(ok, m) := copy_onto src dst w (true, nodes w) in
      if ok then
        (inr (omap (λ '(rel, n), if is_file (Some n)
                                 then Some (child dst rel) else None)
                   (entries_below src w)),
         {| cwd := cwd w; nodes := m |})
      else (inl (OSError "could not copy"), {| cwd := cwd w; nodes := m |}).

(** The names [dir/*] expands to: the entries of [dir] that do not start
    with a dot. *)
Definition glob_star (dir : string) (w : fs) : list string :=
  omap (λ '(rel, _),
          if bool_decide (length (split_sep rel) = 1) && negb (String.prefix "." rel)
          then Some rel else None)
       (entries_below dir w).

(** [Some rest] when [s] is [rest] followed by [suf]. *)
Definition strip_suffix (suf s : string) : option string :=
  let n := String.length s - String.length suf in
  if bool_decide (String.length suf ≤ String.length s)
     && bool_decide (String.substring n (String.length suf) s = suf)
  then Some (String.substring 0 n s) else None.

Definition parent_isdir (path : string) (w : fs) : bool :=
  match last (ancestors path) with
  | Some parent => isdir parent w
  | None => false
  end.

(** [cp -R dir/name... dest] once the shell has expanded [dir/*] to
    [names]: into [dest] when it is a directory, onto [dest] when it is
    not and there is a single source. *)
Definition cp_R (dir : string) (names : list string) (dest : string) (w : fs)
  : bool * gmap string node :=
  if isdir dest w then
    foldr (λ n, copy_onto (child dir n) (child dest n) w)
          (true, nodes w) names
  else
    match names with
    | [n] =>
        if parent_isdir dest w
        then copy_onto (child dir n) dest w (true, nodes w)
        else (false, nodes w)
    | _ => (false, nodes w)
    end.

(** A shell that knows one command line, [cp -R dir/* dest], for paths
    without spaces (the words of the command are split at single spaces).
    What [os.system] returns has the exit status of the command in its
    high byte: 1 when [cp] reports an error (as when [dir/*] matches
    nothing and is passed on unexpanded), 127 when the command is not
    found. *)
Definition system (command : string) (w : fs) : nat * fs :=
  match strip_prefix "cp -R " command with
  | Some args =>
      match split_on " " args with
      | [pattern; dest] =>
          match strip_suffix "/*" pattern with
          | Some dir =>
              let dir := abspath dir w in
              let dest := abspath dest w in
              let names := glob_star dir w in
              if bool_decide (names = []) then (1 * 256, w)
              else
                let '(ok, m) := cp_R dir names dest w in
                ((if ok then 0 else 1 * 256), {| cwd := cwd w; nodes := m |})
          | None => (127 * 256, w)
          end
      | _ => (127 * 256, w)
      end
  | None => (127 * 256, w)
  end.

#[global] Instance posix : OS := {|
  world := fs;
  os_system := system;
  os_path_abspath := abspath;
  os_path_exists := exists_;
  os_makedirs := makedirs;
  copy_tree := copy_tree_fs;
|}.

(** A file system with a workspace and one archived result. *)
Definition example_fs : fs :=
  {| cwd := "/";
     nodes := list_to_map [
       ("/", Dir);
       ("/var", Dir);
       ("/var/reana", Dir);
       ("/var/reana/workflows", Dir);
       ("/var/reana/workflows/w1", Dir);
       ("/var/reana/workflows/w1/code", Dir);
       ("/var/reana/workflows/w1/code/fit.C", File "fit");
       ("/var/reana/workflows/w1/results.txt", File "old");
       ("/var/reana/workflows/archive", Dir);
       ("/var/reana/workflows/archive/job0", Dir);
       ("/var/reana/workflows/archive/job0/results.txt", File "new");
       ("/var/reana/workflows/archive/job0/plots", Dir);
       ("/var/reana/workflows/archive/job0/plots/a.png", File "png")
     ] |}.
End Posix.

(** ** [build_job_spec] *)

Section job_spec.
(** The constant of [config] for the CVMFS mounts. *)
Variable MOUNT_CVMFS : json.

(** The job specification passed to the job controller: a dictionary of
    JSON values. The command and the workspace are the strings formatted
    into ["cmd"]; every other argument is stored as it is given. *)
Definition build_job_spec
    (job_name image compute_backend : json)
    (command workflow_workspace : string)
    (workflow_uuid kerberos unpacked_image kubernetes_uid
     kubernetes_memory_limit kubernetes_job_timeout voms_proxy rucio
     htcondor_max_runtime htcondor_accounting_group slurm_partition
     slurm_time : json)
  : gmap string json :=
  list_to_map [
    ("image", image);
    ("compute_backend", compute_backend);
    ("cmd", JString ("cd " +:+ workflow_workspace +:+ " && " +:+ command));
    ("prettified_cmd", JString command);
    ("workflow_workspace", JString workflow_workspace);
    ("job_name", job_name);
    ("cvmfs_mounts", MOUNT_CVMFS);
    ("workflow_uuid", workflow_uuid);
    ("kerberos", kerberos);
    ("unpacked_img", unpacked_image);
    ("kubernetes_uid", kubernetes_uid);
    ("kubernetes_memory_limit", kubernetes_memory_limit);
    ("kubernetes_job_timeout", kubernetes_job_timeout);
    ("voms_proxy", voms_proxy);
    ("rucio", rucio);
    ("htcondor_max_runtime", htcondor_max_runtime);
    ("htcondor_accounting_group", htcondor_accounting_group);
    ("slurm_partition", slurm_partition);
    ("slurm_time", slurm_time)
  ].
End job_spec.

(** ** Concrete data for the examples *)

(** [str.lower] on the letters A-Z of ASCII; other characters are left
    as they are. It serves the examples only: the theorems hold for any
    lowering function. *)
Definition lower_ascii (c : ascii) : ascii :=
  let n := nat_of_ascii c in
  if (65 <=? n) && (n <=? 90) then ascii_of_nat (n + 32) else c.

Fixpoint str_lower (s : string) : string :=
  match s with
  | EmptyString => EmptyString
  | String c rest => String (lower_ascii c) (str_lower rest)
  end.

Definition step_gen : step := {| name := "gen"; commands := ["make data"] |}.
Definition step_fit : step := {| name := "Fit"; commands := ["echo a"; "echo b"] |}.
Definition step_plot : step := {| name := "plot"; commands := ["make plot"] |}.

(** ** Vocabulary of the statements *)

(** The completed command is the last command of the last step of the
    workflow: both compared by value, as [==] does. *)
Definition is_final (workflow_json : workflow) (s : step) (command : string) : bool :=
  bool_decide (last (steps workflow_json) = Some s ∧ last (commands s) = Some command).

(** [n] rounds of the polling loop: a status query, then a sleep. *)
Fixpoint poll_rounds {duration : Type} (interval : duration) (job_id : string)
    (n : nat) : list (io_event duration) :=
  match n with
  | 0 => []
  | S n' => CheckStatus job_id :: Sleep interval :: poll_rounds interval job_id n'
  end.

(** The position a step name resolves to: that of the first step whose
    name matches; [None] when the name is unset or no step matches. *)
Definition resolve_step (lower : string → string) (l : list step)
    (step_name : option string) : option nat :=
  wanted ← name_set step_name; first_position (name_matches lower wanted) l.

(** A publisher call either publishes exactly one event after those
    already published, or raises and publishes nothing. *)
Definition appends_one_or_raises {job_spec A : Type}
    (call : M (publisher job_spec) A) : Prop :=
  ∀ published,
    (∃ a e, call published = (inr a, published ++ [e])) ∨
    (∃ x, call published = (inl x, published)).

(** The buckets of a progress message that are given, each with its name. *)
Definition given_buckets (p : progress) : list (string * jobs) :=
  omap (λ '(bucket, given), (λ j, (bucket, j)) <$> given)
       [("total", kw_total p); ("running", kw_running p);
        ("finished", kw_finished p); ("failed", kw_failed p);
        ("cached", kw_cached p)].

(** The given buckets of the last event a call has published. *)
Definition last_buckets {job_spec A : Type}
    (outcome : result A * publisher job_spec) : option (list (string * jobs)) :=
  e ← last (snd outcome); given_buckets <$> msg_progress (ev_message e).

(** The total count an event reports, if it reports one. *)
Definition event_total {job_spec : Type} (e : event job_spec) : option nat :=
  p ← msg_progress (ev_message e); jobs ← kw_total p; Some (total jobs).

(** The number of commands of a list of steps. *)
Definition command_count (l : list step) : nat :=
  sum_list (map (λ s, length (commands s)) l).

(** The numbers of status queries and of sleeps in a trace. *)
Fixpoint count_queries {duration : Type} (trace : list (io_event duration)) : nat :=
  match trace with
  | [] => 0
  | CheckStatus _ :: trace' => S (count_queries trace')
  | Sleep _ :: trace' => count_queries trace'
  end.

Fixpoint count_sleeps {duration : Type} (trace : list (io_event duration)) : nat :=
  match trace with
  | [] => 0
  | CheckStatus _ :: trace' => count_sleeps trace'
  | Sleep _ :: trace' => S (count_sleeps trace')
  end.

(** What persisting twice relies on: a directory [os.makedirs] made
    exists, [copy_tree] removes nothing, and neither changes what
    [os.path.abspath] resolves a path to. *)
Class OSPersistLaws (os : OS) : Prop := {
  os_makedirs_creates path w w1 :
    os_makedirs path w = (inr (), w1) → os_path_exists path w1 = true;
  copy_tree_keeps src dst path w1 r w2 :
    copy_tree src dst w1 = (r, w2) →
    os_path_exists path w1 = true → os_path_exists path w2 = true;
  os_makedirs_abspath path q w r w1 :
    os_makedirs path w = (r, w1) → os_path_abspath q w1 = os_path_abspath q w;
  copy_tree_abspath src dst q w1 r w2 :
    copy_tree src dst w1 = (r, w2) → os_path_abspath q w2 = os_path_abspath q w1;
}.

(** The path [<workspace>/../archive/<job_id>] as text; a workspace path
    that ends with a slash gets no second one. *)
Definition archive_location (workflow_workspace job_id : string) : string :=
  workflow_workspace
  +:+ (if ends_with_sep workflow_workspace then "../archive/" else "/../archive/")
  +:+ job_id.

Ltac run_M :=
  unfold mbind, M_bind, mret, M_ret, lift, last_item, publish_workflow_status;
  simpl.

(** * Properties *)

(** ** Step range selection *)

Section targeted_steps_facts.
Variable lower : string → string.
Implicit Types (p : step → bool) (l : list step) (i n : nat).

Lemma first_position_lt p l i :
  first_position p l = Some i → i < length l.
Proof.
  revert i. induction l as [|s l IH]; intros i; simpl; [done|].
  destruct (p s).
  - intros [= <-]. lia.
  - destruct (first_position p l) as [j|]; simpl; [|done].
    intros [= <-]. specialize (IH j eq_refl). lia.
Qed.

(** [first_position] is the position of the first element satisfying [p]. *)
Lemma first_position_Some p l i :
  first_position p l = Some i ↔
  (∃ s, l !! i = Some s ∧ p s = true) ∧
  (∀ j s, j < i → l !! j = Some s → p s = false).
Proof.
  revert i. induction l as [|s l IH]; intros i; simpl.
  - split; [done|]. intros [(s & Hs & _) _]. done.
  - destruct (p s) eqn:Hp.
    + split.
      * intros [= <-]. split; [by exists s|]. intros j s' Hj. lia.
      * intros [(s' & Hs' & Hps') Hmin]. destruct i as [|i]; [done|].
        specialize (Hmin 0 s ltac:(lia) eq_refl). congruence.
    + split.
      * destruct (first_position p l) as [k|] eqn:Hk; simpl; [|done].
        intros [= <-]. destruct (proj1 (IH k) eq_refl) as [Hex Hmin].
        split; [done|].
        intros [|j] s' Hj Hs'; simpl in Hs'.
        -- congruence.
        -- apply (Hmin j); [lia|done].
      * intros [(s' & Hs' & Hps') Hmin]. destruct i as [|i]; simpl in Hs'.
        -- congruence.
        -- assert (first_position p l = Some i) as ->; [|done].
           apply IH. split; [by exists s'|].
           intros j s'' Hj Hs''. apply (Hmin (S j)); [lia|done].
Qed.

Lemma first_position_None p l :
  first_position p l = None ↔ ∀ s, s ∈ l → p s = false.
Proof.
  induction l as [|s l IH]; simpl.
  - split; [|done]. intros _ s Hs. by apply elem_of_nil in Hs.
  - destruct (p s) eqn:Hp.
    + split; [done|]. intros H. specialize (H s (list_elem_of_here _ _)). congruence.
    + destruct (first_position p l) as [k|]; simpl.
      * split; [done|]. intros H.
        assert (Some k = None) as Hk; [|done].
        apply IH. intros s' Hs'. apply H. by right.
      * split; [|done]. intros _ s' [->|Hs']%elem_of_cons; [done|].
        by apply IH.
Qed.

(** The generator expression over [enumerate] yields first the position
    of the first matching step. *)
Lemma head_enumerate_filter (g : nat → nat) p l n :
  head (map (λ '(i, _), g i)
          (filter (λ '(_, s), p s = true) (enumerate_from n l)))
  = (λ i, g (n + i)) <$> first_position p l.
Proof.
  revert n. induction l as [|s l IH]; intros n; simpl; [done|].
  rewrite filter_cons. case_decide as Hp; simpl in Hp.
  - rewrite Hp. simpl. by rewrite Nat.add_0_r.
  - apply not_true_is_false in Hp. rewrite Hp, IH.
    destruct (first_position p l) as [k|]; simpl; [|done].
    do 2 f_equal. lia.
Qed.

Lemma truthy_str_name_set o :
  truthy_str o = true → name_set o = o.
Proof.
  destruct o as [s|]; simpl; [|done].
  case_bool_decide; simpl; done.
Qed.

Lemma falsy_str_name_set o :
  truthy_str o = false → name_set o = None.
Proof.
  destruct o as [s|]; simpl; [|done].
  case_bool_decide; simpl; done.
Qed.

(** The code resolves the indices as the specification words them. *)
Lemma from_step_idx_spec workflow_json from_step :
  from_step_idx lower workflow_json from_step
  = from_index lower (steps workflow_json) from_step.
Proof.
  unfold from_step_idx, from_index.
  destruct (truthy_str from_step) eqn:Ht.
  - rewrite (truthy_str_name_set _ Ht). destruct from_step as [f|]; [|done].
    unfold next, enumerate.
    rewrite (head_enumerate_filter (λ i, i)).
    by destruct (first_position _ _).
  - rewrite (falsy_str_name_set _ Ht). by destruct from_step.
Qed.

Lemma target_step_idx_spec workflow_json target_step :
  target_step_idx lower workflow_json target_step
  = target_index lower (steps workflow_json) target_step.
Proof.
  unfold target_step_idx, target_index.
  destruct (truthy_str target_step) eqn:Ht.
  - rewrite (truthy_str_name_set _ Ht). destruct target_step as [t|]; [|done].
    unfold next, enumerate.
    rewrite (head_enumerate_filter (λ i, i + 1)).
    destruct (first_position _ _) as [k|]; simpl; [|done]. lia.
  - rewrite (falsy_str_name_set _ Ht). by destruct target_step.
Qed.

(** [from_index] and [target_index] in the words of the specification. *)
Lemma from_index_found l from_step f i s :
  name_set from_step = Some f →
  l !! i = Some s → name_matches lower f s = true →
  (∀ j s', j < i → l !! j = Some s' → name_matches lower f s' = false) →
  from_index lower l from_step = i.
Proof.
  intros Hset Hi Hs Hfirst. unfold from_index. rewrite Hset.
  assert (first_position (name_matches lower f) l = Some i) as ->; [|done].
  apply first_position_Some. split; [by exists s|done].
Qed.

Lemma from_index_not_found l from_step f :
  name_set from_step = Some f →
  (∀ s, s ∈ l → name_matches lower f s = false) →
  from_index lower l from_step = 0.
Proof.
  intros Hset Hnone. unfold from_index. rewrite Hset.
  by rewrite (proj2 (first_position_None _ _) Hnone).
Qed.

Lemma target_index_found l target_step t i s :
  name_set target_step = Some t →
  l !! i = Some s → name_matches lower t s = true →
  (∀ j s', j < i → l !! j = Some s' → name_matches lower t s' = false) →
  target_index lower l target_step = i + 1.
Proof.
  intros Hset Hi Hs Hfirst. unfold target_index. rewrite Hset.
  assert (first_position (name_matches lower t) l = Some i) as ->.
  { apply first_position_Some. split; [by exists s|done]. }
  simpl. lia.
Qed.

Lemma target_index_not_found l target_step t :
  name_set target_step = Some t →
  (∀ s, s ∈ l → name_matches lower t s = false) →
  target_index lower l target_step = length l.
Proof.
  intros Hset Hnone. unfold target_index. rewrite Hset.
  by rewrite (proj2 (first_position_None _ _) Hnone).
Qed.

Lemma from_index_lt l from_step :
  l ≠ [] → from_index lower l from_step < length l.
Proof.
  intros Hl. assert (0 < length l) by (destruct l; [done|simpl; lia]).
  unfold from_index. destruct (name_set from_step) as [f|]; [|done].
  destruct (first_position _ l) as [k|] eqn:Hk; simpl; [|done].
  by apply first_position_lt in Hk.
Qed.

Lemma target_index_le l target_step :
  target_index lower l target_step ≤ length l.
Proof.
  unfold target_index. destruct (name_set target_step) as [t|]; [|done].
  destruct (first_position _ l) as [k|] eqn:Hk; simpl; [|done].
  apply first_position_lt in Hk. lia.
Qed.

(** The two indices are equal only for a workflow without steps, or when
    the from step is the step right after the target step. *)
Lemma from_index_eq_target_index l from_step target_step :
  from_index lower l from_step = target_index lower l target_step →
  l = [] ∨
  ∃ f t i,
    name_set from_step = Some f ∧ name_set target_step = Some t ∧
    first_position (name_matches lower f) l = Some (S i) ∧
    first_position (name_matches lower t) l = Some i.
Proof.
  destruct (decide (l = [])) as [->|Hne]; [by left|]. intros Heq. right.
  pose proof (from_index_lt l from_step Hne) as Hlt.
  unfold target_index in Heq.
  destruct (name_set target_step) as [t|]; [|lia].
  destruct (first_position (name_matches lower t) l) as [i|] eqn:Ht;
    simpl in Heq; [|lia].
  unfold from_index in Heq.
  destruct (name_set from_step) as [f|]; [|done].
  destruct (first_position (name_matches lower f) l) as [k|] eqn:Hf;
    simpl in Heq; [|done].
  exists f, t, i. by subst k.
Qed.

(** A slice between two positions in range is a contiguous part of the list. *)
Lemma py_slice_contiguous {A} (a b : nat) (xs : list A) :
  a ≤ b → b ≤ length xs →
  ∃ pre post,
    xs = pre ++ py_slice a b xs ++ post ∧
    length pre = a ∧ length (py_slice a b xs) = b - a.
Proof.
  intros Hab Hb. exists (take a xs), (drop b xs). unfold py_slice.
  split; [|split].
  - rewrite <- (take_drop b xs) at 1.
    rewrite <- (take_drop a (take b xs)) at 1.
    rewrite take_take, Nat.min_l by done. by rewrite <- app_assoc.
  - rewrite length_take. lia.
  - rewrite length_drop, length_take. lia.
Qed.

Lemma get_targeted_workflow_steps_unfold workflow_json target_step from_step :
  get_targeted_workflow_steps lower workflow_json target_step from_step
  = if bool_decide (from_index lower (steps workflow_json) from_step
                    ≤ target_index lower (steps workflow_json) target_step)
    then py_slice (from_index lower (steps workflow_json) from_step)
                  (target_index lower (steps workflow_json) target_step)
                  (steps workflow_json)
    else steps workflow_json.
Proof.
  unfold get_targeted_workflow_steps.
  by rewrite from_step_idx_spec, target_step_idx_spec.
Qed.
End targeted_steps_facts.

(** C1. For every step list and optional [from_step] and [target_step]
    names, matched case-insensitively, with [from_index] the position of
    the first step of that name (0 when the name is unset or not found) and
    [target_index] one past the position of the first step of that name
    (the length of the list when unset or not found; a name is unset when
    it is [None] or empty): [get_targeted_workflow_steps] returns exactly
    the contiguous slice [steps[from_index:target_index]] whenever
    [from_index <= target_index], and the full step list whenever
    [from_index > target_index]. *)
Theorem get_targeted_workflow_steps_slice
    (lower : string → string) (workflow_json : workflow)
    (target_step from_step : option string) :
  let from_index := from_index lower (steps workflow_json) from_step in
  let target_index := target_index lower (steps workflow_json) target_step in
  let selected :=
    get_targeted_workflow_steps lower workflow_json target_step from_step in
  (from_index ≤ target_index →
     selected = py_slice from_index target_index (steps workflow_json) ∧
     ∃ pre post,
       steps workflow_json = pre ++ selected ++ post ∧
       length pre = from_index ∧
       length selected = target_index - from_index) ∧
  (target_index < from_index → selected = steps workflow_json).
Proof.
  intros fi ti selected. subst selected.
  rewrite get_targeted_workflow_steps_unfold. fold fi ti. split.
  - intros Hle. rewrite bool_decide_eq_true_2 by done. split; [done|].
    apply py_slice_contiguous; [done|]. apply target_index_le.
  - intros Hlt. rewrite bool_decide_eq_false_2 by lia. done.
Qed.

Example get_targeted_workflow_steps_until_fit :
  get_targeted_workflow_steps str_lower
    (Workflow [step_gen; step_fit; step_plot]) (Some "FIT") (Some "Gen")
  = [step_gen; step_fit].
Proof. reflexivity. Qed.

Example get_targeted_workflow_steps_unknown_names :
  get_targeted_workflow_steps str_lower
    (Workflow [step_gen; step_fit; step_plot]) (Some "publish") (Some "")
  = [step_gen; step_fit; step_plot].
Proof. reflexivity. Qed.

Example get_targeted_workflow_steps_from_after_target :
  get_targeted_workflow_steps str_lower
    (Workflow [step_gen; step_fit; step_plot]) (Some "gen") (Some "plot")
  = [step_gen; step_fit; step_plot].
Proof. reflexivity. Qed.

(** The comparison of the code is between [from_step_idx] and the index
    one past the target: when the from step is the step right after the
    target step both indices are equal, and the selection is empty instead
    of the full workflow. *)
Example get_targeted_workflow_steps_from_next_to_target :
  from_step_idx str_lower
    (Workflow [step_gen; step_fit; step_plot]) (Some "fit") = 1 ∧
  target_step_idx str_lower
    (Workflow [step_gen; step_fit; step_plot]) (Some "gen") = 1 ∧
  get_targeted_workflow_steps str_lower
    (Workflow [step_gen; step_fit; step_plot]) (Some "gen") (Some "fit")
  = [].
Proof. repeat split; reflexivity. Qed.

(** C4, as stated, fails on the workflow without steps: no name is given,
    so the selection is consistent, and the selected range is empty. *)
Lemma get_targeted_workflow_steps_empty_workflow :
  from_index str_lower (steps (Workflow [])) None
    ≤ target_index str_lower (steps (Workflow [])) None ∧
  get_targeted_workflow_steps str_lower (Workflow []) None None = [].
Proof. split; [vm_compute; lia|reflexivity]. Qed.

(** C4, amended. For every step list and every choice of names, the range
    [get_targeted_workflow_steps] returns is a contiguous, non-empty slice
    of the full step list whenever [from_index < target_index], and is the
    full step list whenever [from_index > target_index]. *)
Theorem get_targeted_workflow_steps_nonempty_slice
    (lower : string → string) (workflow_json : workflow)
    (target_step from_step : option string) :
  let from_index := from_index lower (steps workflow_json) from_step in
  let target_index := target_index lower (steps workflow_json) target_step in
  let selected :=
    get_targeted_workflow_steps lower workflow_json target_step from_step in
  (from_index < target_index →
     selected ≠ [] ∧
     ∃ pre post,
       steps workflow_json = pre ++ selected ++ post ∧
       length pre = from_index ∧
       length pre + length selected = target_index) ∧
  (target_index < from_index → selected = steps workflow_json).
Proof.
  intros fi ti selected. subst selected.
  rewrite get_targeted_workflow_steps_unfold. fold fi ti. split.
  - intros Hlt. rewrite bool_decide_eq_true_2 by lia.
    destruct (py_slice_contiguous fi ti (steps workflow_json))
      as (pre & post & Heq & Hpre & Hlen); [lia|apply target_index_le|].
    split.
    + intros Hnil. rewrite Hnil in Hlen. simpl in Hlen. lia.
    + exists pre, post. repeat split; [done|done|lia].
  - intros Hlt. rewrite bool_decide_eq_false_2 by lia. done.
Qed.

(** ** Progress events *)

Section publishers_facts.
Context {job_spec : Type}.
Variable environ : gmap string string.
Implicit Types (s : step) (published : publisher job_spec).

Lemma is_final_true workflow_json s command :
  is_final workflow_json s command = true ↔
  last (steps workflow_json) = Some s ∧ last (commands s) = Some command.
Proof. unfold is_final. by rewrite bool_decide_eq_true. Qed.

(** On a workflow with steps, and unless the step is the last one and has
    no command, the success publisher publishes one event. *)
Lemma publish_job_success_event
    job_id (spec : job_spec) workflow_workspace workflow_json s command
    workflow_uuid cache_dir_path published :
  steps workflow_json ≠ [] →
  (last (steps workflow_json) = Some s → commands s ≠ []) →
  ∃ msg,
    publish_job_success environ job_id spec workflow_workspace workflow_json
      s command workflow_uuid cache_dir_path published
    = (inr (),
       published ++
         [Event workflow_uuid
            (if is_final workflow_json s command then 2 else 1) msg]).
Proof.
  intros Hsteps Hcommands. unfold publish_job_success, is_final. run_M.
  destruct (last (steps workflow_json)) as [last_step|] eqn:Hlast.
  2: { by apply last_None in Hlast. }
  case_bool_decide as Hs.
  - subst last_step.
    destruct (last (commands s)) as [last_command|] eqn:Hcmd.
    2: { apply last_None in Hcmd. by destruct Hcommands. }
    eexists. do 3 f_equal.
    case_bool_decide as Hc; [subst; by rewrite bool_decide_eq_true_2|].
    rewrite bool_decide_eq_false_2; [done|]. intros [_ [= ->]]. done.
  - eexists. do 3 f_equal.
    rewrite bool_decide_eq_false_2; [done|]. intros [[= ->] _]. done.
Qed.

Lemma publish_cache_copy_event
    job_id s workflow_json command workflow_uuid published :
  steps workflow_json ≠ [] →
  (last (steps workflow_json) = Some s → commands s ≠ []) →
  ∃ msg,
    publish_cache_copy job_id s workflow_json command workflow_uuid published
    = (inr (),
       published ++
         [Event workflow_uuid
            (if is_final workflow_json s command then 2 else 1) msg]).
Proof.
  intros Hsteps Hcommands. unfold publish_cache_copy, is_final. run_M.
  destruct (last (steps workflow_json)) as [last_step|] eqn:Hlast.
  2: { by apply last_None in Hlast. }
  case_bool_decide as Hs.
  - subst last_step.
    destruct (last (commands s)) as [last_command|] eqn:Hcmd.
    2: { apply last_None in Hcmd. by destruct Hcommands. }
    eexists. do 3 f_equal.
    case_bool_decide as Hc; [subst; by rewrite bool_decide_eq_true_2|].
    rewrite bool_decide_eq_false_2; [done|]. intros [_ [= ->]]. done.
  - eexists. do 3 f_equal.
    rewrite bool_decide_eq_false_2; [done|]. intros [[= ->] _]. done.
Qed.

(** Without steps there is no last step: [steps[-1]] raises. *)
Lemma publish_job_success_no_steps
    job_id (spec : job_spec) workflow_workspace s command
    workflow_uuid cache_dir_path published :
  publish_job_success environ job_id spec workflow_workspace (Workflow [])
    s command workflow_uuid cache_dir_path published
  = (inl IndexError, published).
Proof. reflexivity. Qed.

(** For the last step without commands, [step["commands"][-1]] raises. *)
Lemma publish_job_success_no_commands
    job_id (spec : job_spec) workflow_workspace workflow_json s command
    workflow_uuid cache_dir_path published :
  last (steps workflow_json) = Some s → commands s = [] →
  publish_job_success environ job_id spec workflow_workspace workflow_json
    s command workflow_uuid cache_dir_path published
  = (inl IndexError, published).
Proof.
  intros Hlast Hcommands. unfold publish_job_success. run_M.
  rewrite Hlast. rewrite bool_decide_eq_true_2 by done.
  by rewrite Hcommands.
Qed.
End publishers_facts.

(** C2, as stated, fails on a workflow json without steps: there
    [steps[-1]] raises [IndexError], and neither publisher emits a status. *)
Lemma publishers_raise_without_steps :
  publish_job_success (job_spec := unit) ∅ "job-1" () "/var/reana/workflows/w1"
    (Workflow []) step_fit "echo b" "uuid-1" None []
  = (inl IndexError, []) ∧
  publish_cache_copy (job_spec := unit) "job-1" step_fit (Workflow [])
    "echo b" "uuid-1" []
  = (inl IndexError, []).
Proof. split; reflexivity. Qed.

(** C2, amended. For every workflow json with at least one step, and every
    step and command such that the step has a command when it equals the
    last step: the success and the cache-hit publishers each publish one
    event, whose status is 2 (finished) if and only if the step equals the
    last step of the step list of the workflow json and the command equals
    the last command of that step, and is 1 (running) in every other case. *)
Theorem publishers_status_finished_iff_last
    {job_spec : Type} (environ : gmap string string)
    (job_id : string) (spec : job_spec) (workflow_workspace : string)
    (workflow_json : workflow) (s : step) (command : string)
    (workflow_uuid : string) (cache_dir_path : option string)
    (published : publisher job_spec) :
  steps workflow_json ≠ [] →
  (last (steps workflow_json) = Some s → commands s ≠ []) →
  ∃ workflow_status msg_success msg_cache,
    publish_job_success environ job_id spec workflow_workspace workflow_json
      s command workflow_uuid cache_dir_path published
    = (inr (), published ++ [Event workflow_uuid workflow_status msg_success]) ∧
    publish_cache_copy job_id s workflow_json command workflow_uuid published
    = (inr (), published ++ [Event workflow_uuid workflow_status msg_cache]) ∧
    (workflow_status = 2 ↔
       last (steps workflow_json) = Some s ∧ last (commands s) = Some command) ∧
    (workflow_status = 1 ↔
       ¬ (last (steps workflow_json) = Some s ∧ last (commands s) = Some command)).
Proof.
  intros Hsteps Hcommands.
  destruct (publish_job_success_event environ job_id spec workflow_workspace
              workflow_json s command workflow_uuid cache_dir_path published
              Hsteps Hcommands) as [msg_success Hsuccess].
  destruct (publish_cache_copy_event (job_spec := job_spec) job_id s
              workflow_json command workflow_uuid published
              Hsteps Hcommands) as [msg_cache Hcache].
  exists (if is_final workflow_json s command then 2 else 1), msg_success, msg_cache.
  split; [done|]. split; [done|].
  rewrite <- is_final_true.
  destruct (is_final workflow_json s command); split; split; done.
Qed.

Lemma publishers_status_finished_iff_last_witness :
  steps (Workflow [step_gen; step_fit]) ≠ [] ∧
  (last (steps (Workflow [step_gen; step_fit])) = Some step_fit →
   commands step_fit ≠ []) ∧
  ∃ workflow_status msg_success msg_cache,
    publish_job_success (job_spec := unit) ∅ "job-2" () "/var/reana/workflows/w1"
      (Workflow [step_gen; step_fit]) step_fit "echo b" "uuid-1" None []
    = (inr (), [] ++ [Event "uuid-1" workflow_status msg_success]) ∧
    publish_cache_copy (job_spec := unit) "job-2" step_fit
      (Workflow [step_gen; step_fit]) "echo b" "uuid-1" []
    = (inr (), [] ++ [Event "uuid-1" workflow_status msg_cache]) ∧
    (workflow_status = 2 ↔
       last (steps (Workflow [step_gen; step_fit])) = Some step_fit ∧
       last (commands step_fit) = Some "echo b") ∧
    (workflow_status = 1 ↔
       ¬ (last (steps (Workflow [step_gen; step_fit])) = Some step_fit ∧
          last (commands step_fit) = Some "echo b")).
Proof.
  split; [done|]. split; [done|].
  apply (publishers_status_finished_iff_last (job_spec := unit) ∅ "job-2" ()
           "/var/reana/workflows/w1" (Workflow [step_gen; step_fit]) step_fit
           "echo b" "uuid-1" None []); done.
Defined.

(** Scenario A of the specification: one step with two commands. *)
Example publish_job_success_scenario_a :
  let workflow_json := Workflow [{| name := "fit"; commands := ["echo a"; "echo b"] |}] in
  let s := {| name := "fit"; commands := ["echo a"; "echo b"] |} in
  (ev_status <$>
     snd (publish_job_success (job_spec := unit) ∅ "a" () "/w" workflow_json
            s "echo a" "uuid-1" None [])) = [1] ∧
  (ev_status <$>
     snd (publish_job_success (job_spec := unit) ∅ "b" () "/w" workflow_json
            s "echo b" "uuid-1" None [])) = [2].
Proof. split; reflexivity. Qed.

(** C10, as stated, fails when the later of the two equal steps is not the
    last step: the status published for the last command of the earlier
    duplicate is then 1. *)
Lemma publishers_duplicate_before_last_running :
  (ev_status <$>
     snd (publish_job_success (job_spec := unit) ∅ "job-1" () "/w"
            (Workflow [step_gen; step_gen; step_plot])
            step_gen "make data" "uuid-1" None [])) = [1] ∧
  (ev_status <$>
     snd (publish_cache_copy (job_spec := unit) "job-1" step_gen
            (Workflow [step_gen; step_gen; step_plot])
            "make data" "uuid-1" [])) = [1].
Proof. split; reflexivity. Qed.

(** C10, amended. [publish_job_success] and [publish_cache_copy] decide
    finality by structural equality of step and command values: for every
    workflow json whose last step entry is structurally equal to an earlier
    entry, completing the last command of the earlier duplicate already
    publishes workflow status 2 (finished), although commands of later
    steps remain. *)
Theorem publishers_duplicate_of_last_finished
    {job_spec : Type} (environ : gmap string string)
    (job_id : string) (spec : job_spec) (workflow_workspace : string)
    (workflow_json : workflow) (i : nat) (s : step) (command : string)
    (workflow_uuid : string) (cache_dir_path : option string)
    (published : publisher job_spec) :
  steps workflow_json !! i = Some s →
  i + 1 < length (steps workflow_json) →
  last (steps workflow_json) = Some s →
  last (commands s) = Some command →
  ∃ msg_success msg_cache,
    publish_job_success environ job_id spec workflow_workspace workflow_json
      s command workflow_uuid cache_dir_path published
    = (inr (), published ++ [Event workflow_uuid 2 msg_success]) ∧
    publish_cache_copy job_id s workflow_json command workflow_uuid published
    = (inr (), published ++ [Event workflow_uuid 2 msg_cache]).
Proof.
  intros Hi Hlater Hlast Hcommand.
  assert (steps workflow_json ≠ []) as Hsteps.
  { intros Hnil. by rewrite Hnil in Hi. }
  assert (last (steps workflow_json) = Some s → commands s ≠ []) as Hcommands.
  { intros _ Hnil. by rewrite Hnil in Hcommand. }
  assert (is_final workflow_json s command = true) as Hfinal.
  { by apply is_final_true. }
  destruct (publish_job_success_event environ job_id spec workflow_workspace
              workflow_json s command workflow_uuid cache_dir_path published
              Hsteps Hcommands) as [msg_success Hsuccess].
  destruct (publish_cache_copy_event (job_spec := job_spec) job_id s
              workflow_json command workflow_uuid published
              Hsteps Hcommands) as [msg_cache Hcache].
  rewrite Hfinal in Hsuccess, Hcache. by exists msg_success, msg_cache.
Qed.

Lemma publishers_duplicate_of_last_finished_witness :
  steps (Workflow [step_gen; step_plot; step_gen]) !! 0 = Some step_gen ∧
  0 + 1 < length (steps (Workflow [step_gen; step_plot; step_gen])) ∧
  last (steps (Workflow [step_gen; step_plot; step_gen])) = Some step_gen ∧
  last (commands step_gen) = Some "make data" ∧
  ∃ msg_success msg_cache,
    publish_job_success (job_spec := unit) ∅ "job-1" () "/w"
      (Workflow [step_gen; step_plot; step_gen])
      step_gen "make data" "uuid-1" None []
    = (inr (), [] ++ [Event "uuid-1" 2 msg_success]) ∧
    publish_cache_copy (job_spec := unit) "job-1" step_gen
      (Workflow [step_gen; step_plot; step_gen]) "make data" "uuid-1" []
    = (inr (), [] ++ [Event "uuid-1" 2 msg_cache]).
Proof.
  split; [reflexivity|]. split; [simpl; lia|].
  split; [reflexivity|]. split; [reflexivity|].
  apply (publishers_duplicate_of_last_finished (job_spec := unit) ∅ "job-1" ()
           "/w" (Workflow [step_gen; step_plot; step_gen]) 0 step_gen
           "make data" "uuid-1" None []).
  - reflexivity.
  - simpl. lia.
  - reflexivity.
  - reflexivity.
Defined.

(** The loop of [publish_workflow_start] adds up the command counts. *)
Lemma foldl_command_count (l : list step) (acc : nat) :
  foldl (λ total_commands s, total_commands + length (commands s)) acc l
  = acc + sum_list (map (λ s, length (commands s)) l).
Proof.
  revert acc. induction l as [|s l IH]; intros acc; simpl; [lia|].
  rewrite IH. lia.
Qed.

(** C8. For every step list, [publish_workflow_start] publishes exactly one
    event, with status 1, whose total count is the sum of the command
    counts of all steps of the given list, with no job id; the list is the
    only input the count depends on. *)
Theorem publish_workflow_start_total
    {job_spec : Type} (environ : gmap string string)
    (workflow_steps : list step) (workflow_uuid : string)
    (published : publisher job_spec) :
  ∃ msg,
    publish_workflow_start environ workflow_steps workflow_uuid published
    = (inr (), published ++ [Event workflow_uuid 1 msg]) ∧
    msg_progress msg
    = Some (build_progress_message
              (Some {| total := sum_list (map (λ s, length (commands s)) workflow_steps);
                       job_ids := [] |})
              None None None None).
Proof.
  eexists. split; [reflexivity|]. simpl.
  by rewrite foldl_command_count.
Qed.

Example publish_workflow_start_three_steps :
  publish_workflow_start (job_spec := unit) ∅
    [step_gen; step_fit; step_plot] "uuid-1" []
  = (inr (),
     [Event "uuid-1" 1
        {| msg_progress :=
             Some (build_progress_message
                     (Some {| total := 4; job_ids := [] |}) None None None None);
           msg_caching_info := None;
           msg_pod_name := Some None |}]).
Proof. reflexivity. Qed.

(** C9. For every workflow failure report, [publish_workflow_failure]
    publishes status 3 (failed); when a job id is supplied (a non-empty
    string) the failed bucket holds exactly that job id with count 1, and
    when the job id is absent ([None], or empty) the failed bucket is
    omitted: no bucket with a null id is recorded. *)
Theorem publish_workflow_failure_bucket
    {job_spec : Type} (job_id : option string) (workflow_uuid : string)
    (published : publisher job_spec) :
  ∃ failed_jobs,
    publish_workflow_failure job_id workflow_uuid published
    = (inr (),
       published ++
         [Event workflow_uuid 3
            {| msg_progress :=
                 Some (build_progress_message None None None failed_jobs None);
               msg_caching_info := None;
               msg_pod_name := None |}]) ∧
    (∀ id, job_id = Some id → id ≠ "" →
       failed_jobs = Some {| total := 1; job_ids := [id] |}) ∧
    (job_id = None ∨ job_id = Some "" → failed_jobs = None).
Proof.
  eexists. split; [reflexivity|]. split.
  - intros id -> Hid. simpl. by rewrite bool_decide_eq_false_2.
  - by intros [->| ->].
Qed.

Example publish_workflow_failure_with_job :
  publish_workflow_failure (job_spec := unit) (Some "job-7") "uuid-1" []
  = (inr (),
     [Event "uuid-1" 3
        {| msg_progress :=
             Some (build_progress_message None None None
                     (Some {| total := 1; job_ids := ["job-7"] |}) None);
           msg_caching_info := None;
           msg_pod_name := None |}]).
Proof. reflexivity. Qed.

(** ** The cache lookup *)

(** C3, as stated, fails on a response whose body has no ["cached"] key:
    [result["cached"]] raises [KeyError]. *)
Lemma check_cache_key_absent_raises :
  check_cache (job_spec := unit) (λ _ _ _, inr (JObject ∅))
    () step_fit "/var/reana/workflows/w1"
  = inl (KeyError "cached").
Proof. reflexivity. Qed.

(** C3, amended. For every cache-service response whose parsed body is an
    object: when the body has a ["cached"] member that is not truthy,
    [check_cache] returns a miss (the empty result) and does not raise;
    when the ["cached"] key is absent, [check_cache] raises [KeyError]. *)
Theorem check_cache_miss
    {job_spec : Type} (check_if_cached_json : job_spec → step → string → result json)
    (job_spec_copy : job_spec) (s : step) (workflow_workspace : string)
    (members : gmap string json) :
  check_if_cached_json job_spec_copy s workflow_workspace = inr (JObject members) →
  (∀ cached, members !! "cached" = Some cached → truthy cached = false →
     check_cache check_if_cached_json job_spec_copy s workflow_workspace
     = inr (JObject ∅)) ∧
  (members !! "cached" = None →
     check_cache check_if_cached_json job_spec_copy s workflow_workspace
     = inl (KeyError "cached")).
Proof.
  intros Hbody. unfold check_cache. rewrite Hbody. simpl. split.
  - intros cached Hcached Hfalsy.
    unfold mbind, result_bind. simpl. rewrite Hcached, Hfalsy. done.
  - intros Habsent. unfold mbind, result_bind. simpl. by rewrite Habsent.
Qed.

Lemma check_cache_miss_witness :
  (λ (_ : unit) (_ : step) (_ : string),
     inr (JObject {[ "cached" := JBool false ]}) : result json)
    () step_fit "/w"
  = inr (JObject {[ "cached" := JBool false ]}) ∧
  (∀ cached,
     ({[ "cached" := JBool false ]} : gmap string json) !! "cached" = Some cached →
     truthy cached = false →
     check_cache (λ _ _ _, inr (JObject {[ "cached" := JBool false ]}))
       () step_fit "/w"
     = inr (JObject ∅)) ∧
  (({[ "cached" := JBool false ]} : gmap string json) !! "cached" = None →
     check_cache (λ _ _ _, inr (JObject {[ "cached" := JBool false ]}))
       () step_fit "/w"
     = inl (KeyError "cached")).
Proof.
  split; [reflexivity|].
  apply (check_cache_miss
           (λ _ _ _, inr (JObject {[ "cached" := JBool false ]}))
           () step_fit "/w" {[ "cached" := JBool false ]}).
  reflexivity.
Defined.

(** A hit returns the parsed body as it is. *)
Lemma check_cache_hit
    {job_spec : Type} (check_if_cached_json : job_spec → step → string → result json)
    (job_spec_copy : job_spec) (s : step) (workflow_workspace : string)
    (members : gmap string json) (cached : json) :
  check_if_cached_json job_spec_copy s workflow_workspace = inr (JObject members) →
  members !! "cached" = Some cached → truthy cached = true →
  check_cache check_if_cached_json job_spec_copy s workflow_workspace
  = inr (JObject members).
Proof.
  intros Hbody Hcached Htruthy. unfold check_cache. rewrite Hbody.
  unfold mbind, result_bind. simpl. by rewrite Hcached, Htruthy.
Qed.

(** An exception of the client call or of the parsing propagates. *)
Lemma check_cache_propagates
    {job_spec : Type} (check_if_cached_json : job_spec → step → string → result json)
    (job_spec_copy : job_spec) (s : step) (workflow_workspace : string) (e : exn) :
  check_if_cached_json job_spec_copy s workflow_workspace = inl e →
  check_cache check_if_cached_json job_spec_copy s workflow_workspace = inl e.
Proof. intros Hraise. unfold check_cache. by rewrite Hraise. Qed.

(** ** Cache restore and cache persist *)

Lemma append_assoc (a b c : string) : (a +:+ b) +:+ c = a +:+ b +:+ c.
Proof.
  induction a as [|x a IH]; [done|].
  change (String x ((a +:+ b) +:+ c) = String x (a +:+ b +:+ c)).
  by rewrite IH.
Qed.

Lemma ends_with_sep_append (a : string) (x : ascii) (b : string) :
  ends_with_sep (a +:+ String x b) = ends_with_sep (String x b).
Proof.
  induction a as [|y a IH]; [done|].
  change (String y a +:+ String x b) with (String y (a +:+ String x b)).
  destruct (a +:+ String x b) as [|z r] eqn:Happ.
  - destruct a; discriminate.
  - rewrite <- IH. done.
Qed.

(** Joining a relative component to a path that is not empty and does not
    end with a slash. *)
Lemma join_component_relative (path b : string) :
  path ≠ "" → ends_with_sep path = false → String.prefix "/" b = false →
  join_component path b = path +:+ "/" +:+ b.
Proof.
  intros Hne Hsep Hb. unfold join_component.
  rewrite Hb, Hsep. by rewrite bool_decide_eq_false_2.
Qed.

Lemma append_nonempty (a : string) (x : ascii) (b : string) :
  a +:+ String x b ≠ "".
Proof. by destruct a. Qed.

(** For a result path that is not empty and does not end with a slash,
    [os.path.join(result_path, "*")] is the path followed by ["/*"]. *)
Lemma os_path_join_star (result_path : string) :
  result_path ≠ "" → ends_with_sep result_path = false →
  os_path_join result_path ["*"] = result_path +:+ "/*".
Proof.
  intros Hne Hsep. unfold os_path_join. simpl.
  by rewrite join_component_relative.
Qed.

(** For such a workspace path and a job id that does not start with a
    slash, the joined archive path is [<workspace>/../archive/<job_id>]. *)
Lemma os_path_join_archive (workflow_workspace job_id : string) :
  workflow_workspace ≠ "" → ends_with_sep workflow_workspace = false →
  String.prefix "/" job_id = false →
  os_path_join workflow_workspace [os_pardir; "archive"; job_id]
  = workflow_workspace +:+ "/../archive/" +:+ job_id.
Proof.
  intros Hne Hsep Hjob. unfold os_path_join, os_pardir. simpl.
  rewrite (join_component_relative workflow_workspace "..") by done.
  change (workflow_workspace +:+ "/" +:+ "..")
    with (workflow_workspace +:+ "/..").
  rewrite (join_component_relative _ "archive");
    [|apply append_nonempty|by rewrite ends_with_sep_append|done].
  rewrite append_assoc.
  change ("/.." +:+ "/" +:+ "archive") with "/../archive".
  rewrite (join_component_relative _ job_id);
    [|apply append_nonempty|by rewrite ends_with_sep_append|done].
  rewrite append_assoc. done.
Qed.



(** The pattern [<result_path>/*] does not match the entries whose name
    starts with a dot: on the file system of the example with a hidden
    file in the archived result, the restore leaves that file out. *)
Example copy_workspace_from_cache_leaves_dot_entries :
  let archived :=
    {| Posix.cwd := "/";
       Posix.nodes :=
         <["/var/reana/workflows/archive/job0/.config" := Posix.File "cfg"]>
           (Posix.nodes Posix.example_fs) |} in
  let '(r, w) :=
    copy_workspace_from_cache
      "/var/reana/workflows/archive/job0" "/var/reana/workflows/w1" archived in
  r = inr () ∧
  Posix.nodes w !! "/var/reana/workflows/w1/results.txt" = Some (Posix.File "new") ∧
  Posix.nodes w !! "/var/reana/workflows/w1/.config" = None.
Proof. vm_compute. repeat split. Qed.

(** On the file system of the example, the restore copies the tree of the
    archived result into the workspace, overwrites [results.txt] and keeps
    what the workspace had besides. *)
Example copy_workspace_from_cache_restores :
  let '(r, w) :=
    copy_workspace_from_cache
      "/var/reana/workflows/archive/job0" "/var/reana/workflows/w1"
      Posix.example_fs in
  r = inr () ∧
  Posix.nodes w !! "/var/reana/workflows/w1/results.txt" = Some (Posix.File "new") ∧
  Posix.nodes w !! "/var/reana/workflows/w1/plots" = Some Posix.Dir ∧
  Posix.nodes w !! "/var/reana/workflows/w1/plots/a.png" = Some (Posix.File "png") ∧
  Posix.nodes w !! "/var/reana/workflows/w1/code/fit.C" = Some (Posix.File "fit").
Proof. vm_compute. repeat split. Qed.

(** The file system of the example keeps the promise of [os.makedirs]. *)
Lemma posix_laws : OSLaws Posix.posix.
Proof.
  constructor. intros path w Hexists. simpl in *.
  unfold Posix.makedirs. by rewrite Hexists.
Qed.

(** On the file system of the example: a fresh job id gets its archive
    next to the workspace, with a copy of the workspace tree; the id of an
    archived job is refused. *)
Example copy_workspace_to_cache_fresh :
  let '(r, w) :=
    copy_workspace_to_cache "job1" "/var/reana/workflows/w1" Posix.example_fs in
  r = inr "/var/reana/workflows/archive/job1" ∧
  Posix.nodes w !! "/var/reana/workflows/archive/job1" = Some Posix.Dir ∧
  Posix.nodes w !! "/var/reana/workflows/archive/job1/results.txt"
    = Some (Posix.File "old") ∧
  Posix.nodes w !! "/var/reana/workflows/archive/job1/code/fit.C"
    = Some (Posix.File "fit").
Proof. vm_compute. repeat split. Qed.

Example copy_workspace_to_cache_existing :
  copy_workspace_to_cache "job0" "/var/reana/workflows/w1" Posix.example_fs
  = (inl (FileExistsError "/var/reana/workflows/archive/job0"), Posix.example_fs).
Proof. vm_compute. reflexivity. Qed.

(** ** Polling *)

Section polling_facts.
Context {duration : Type}.
Variable JOB_STATUS_POLLING_INTERVAL : duration.
Implicit Types (answers : list (result JobStatus))
  (trace : list (io_event duration)) (n : nat).

Lemma terminal_true (job_status : JobStatus) :
  terminal job_status = true ↔
  status job_status = "finished" ∨ status job_status = "failed"
  ∨ status job_status = "stopped".
Proof.
  unfold terminal. rewrite bool_decide_eq_true.
  rewrite !elem_of_cons, elem_of_nil. tauto.
Qed.

(** What the loop appends to the trace before it returns a status. *)
Lemma poll_loop_returns_trace job_id job_status answers trace returned trace' :
  poll_loop JOB_STATUS_POLLING_INTERVAL job_id job_status answers trace
  = Some (inr returned, trace') →
  terminal returned = true ∧
  ∃ n, trace' = trace ++ poll_rounds JOB_STATUS_POLLING_INTERVAL job_id n.
Proof.
  revert job_status trace.
  induction answers as [|[e|job_status'] answers IH]; intros job_status trace;
    simpl; destruct (terminal job_status) eqn:Hterminal; try done.
  - intros [= <- <-]. split; [done|]. exists 0. simpl. by rewrite app_nil_r.
  - intros [= <- <-]. split; [done|]. exists 0. simpl. by rewrite app_nil_r.
  - intros [= <- <-]. split; [done|]. exists 0. simpl. by rewrite app_nil_r.
  - intros Hloop. apply IH in Hloop as [Hreturned [n ->]].
    split; [done|]. exists (S n). simpl. by rewrite <- app_assoc.
Qed.

(** In a sequence of polling rounds, a sleep separates any two queries. *)
Lemma poll_rounds_separated job_id n before between after :
  poll_rounds JOB_STATUS_POLLING_INTERVAL job_id n
  = before ++ CheckStatus job_id :: between ++ CheckStatus job_id :: after →
  Sleep JOB_STATUS_POLLING_INTERVAL ∈ between.
Proof.
  revert before. induction n as [|n IH]; intros before; simpl.
  - by destruct before.
  - destruct before as [|x [|y before]]; simpl.
    + intros [= Hrest]. destruct between as [|z between]; [done|].
      simpl in Hrest. injection Hrest as <- _. by left.
    + intros [= _ ?].
    + intros [= _ _ Hrest]. by apply (IH before).
Qed.

Lemma poll_loop_terminal job_id job_status answers trace :
  terminal job_status = true →
  poll_loop JOB_STATUS_POLLING_INTERVAL job_id job_status answers trace
  = Some (inr job_status, trace).
Proof. intros Hterminal. destruct answers; simpl; by rewrite Hterminal. Qed.

(** The loop returns as soon as the job controller answers with a
    terminal status. *)
Lemma poll_loop_returns job_id job_status (pending : list JobStatus)
    returned answers trace :
  Forall (λ js, terminal js = false) (job_status :: pending) →
  terminal returned = true →
  poll_loop JOB_STATUS_POLLING_INTERVAL job_id job_status
    ((inr <$> pending) ++ inr returned :: answers) trace
  = Some (inr returned,
          trace ++ poll_rounds JOB_STATUS_POLLING_INTERVAL job_id
                     (S (length pending))).
Proof.
  revert job_status trace.
  induction pending as [|js pending IH]; intros job_status trace Hpending Hret.
  - apply Forall_cons in Hpending as [Hjs _]. simpl. rewrite Hjs.
    by rewrite poll_loop_terminal.
  - apply Forall_cons in Hpending as [Hjs Hpending]. simpl. rewrite Hjs.
    rewrite IH by done. by rewrite <- app_assoc.
Qed.

Lemma poll_job_status_returns job_id (pending : list JobStatus) returned answers :
  Forall (λ js, terminal js = false) pending →
  terminal returned = true →
  poll_job_status JOB_STATUS_POLLING_INTERVAL job_id
    ((inr <$> pending) ++ inr returned :: answers)
  = Some (inr returned,
          CheckStatus job_id
            :: poll_rounds JOB_STATUS_POLLING_INTERVAL job_id (length pending)).
Proof.
  intros Hpending Hret. destruct pending as [|js pending]; simpl.
  - by rewrite poll_loop_terminal.
  - by rewrite poll_loop_returns.
Qed.
End polling_facts.

(** C5, as stated, fails on the first two status queries: when the first
    answer is not terminal the second query follows the first with no
    sleep between them. *)
Lemma poll_job_status_second_query_at_once :
  let trace := [CheckStatus "job-1"; CheckStatus "job-1"; Sleep 3] in
  poll_job_status 3 "job-1"
    [inr (Build_JobStatus "running"); inr (Build_JobStatus "failed")]
  = Some (inr (Build_JobStatus "failed"), trace) ∧
  trace = [] ++ CheckStatus "job-1" :: [] ++ CheckStatus "job-1" :: [Sleep 3] ∧
  Sleep 3 ∉ ([] : list (io_event nat)).
Proof.
  split; [reflexivity|]. split; [reflexivity|]. apply not_elem_of_nil.
Qed.

(** C5, amended. For every job id, a status [poll_job_status] returns is
    terminal (finished, failed or stopped); the first event of the call is
    a status query, so no sleep precedes it; and between every pair of the
    status queries that follow the first there is a sleep of
    [JOB_STATUS_POLLING_INTERVAL]: what follows the first query is a
    sequence of rounds, each a status query and then such a sleep. The
    call does return, with the first terminal status, once the job
    controller answers with one. *)
Theorem poll_job_status_terminal_paced
    {duration : Type} (JOB_STATUS_POLLING_INTERVAL : duration)
    (job_id : string) (answers : list (result JobStatus)) :
  (∀ returned trace,
     poll_job_status JOB_STATUS_POLLING_INTERVAL job_id answers
     = Some (inr returned, trace) →
     (status returned = "finished" ∨ status returned = "failed"
      ∨ status returned = "stopped") ∧
     ∃ subsequent,
       trace = CheckStatus job_id :: subsequent ∧
       (∃ n, subsequent = poll_rounds JOB_STATUS_POLLING_INTERVAL job_id n) ∧
       ∀ before between after,
         subsequent
         = before ++ CheckStatus job_id :: between ++ CheckStatus job_id :: after →
         Sleep JOB_STATUS_POLLING_INTERVAL ∈ between) ∧
  (∀ pending returned later,
     answers = (inr <$> pending) ++ inr returned :: later →
     Forall (λ job_status, terminal job_status = false) pending →
     terminal returned = true →
     ∃ trace,
       poll_job_status JOB_STATUS_POLLING_INTERVAL job_id answers
       = Some (inr returned, trace)).
Proof.
  split.
  - intros returned trace. unfold poll_job_status.
    destruct answers as [|[e|job_status] answers']; [done..|].
    intros Hloop. apply poll_loop_returns_trace in Hloop as [Hterminal [n ->]].
    split; [by apply terminal_true|].
    exists (poll_rounds JOB_STATUS_POLLING_INTERVAL job_id n). split; [done|].
    split; [by exists n|].
    intros before between after. apply poll_rounds_separated.
  - intros pending returned later -> Hpending Hterminal. eexists.
    by apply poll_job_status_returns.
Qed.

Lemma poll_job_status_terminal_paced_witness :
  let answers :=
    [inr (Build_JobStatus "queued"); inr (Build_JobStatus "running");
     inr (Build_JobStatus "running"); inr (Build_JobStatus "finished")] in
  let trace :=
    [CheckStatus "job-1";
     CheckStatus "job-1"; Sleep 3;
     CheckStatus "job-1"; Sleep 3;
     CheckStatus "job-1"; Sleep 3] in
  poll_job_status 3 "job-1" answers
  = Some (inr (Build_JobStatus "finished"), trace) ∧
  (status (Build_JobStatus "finished") = "finished"
   ∨ status (Build_JobStatus "finished") = "failed"
   ∨ status (Build_JobStatus "finished") = "stopped") ∧
  ∃ subsequent,
    trace = CheckStatus "job-1" :: subsequent ∧
    (∃ n, subsequent = poll_rounds 3 "job-1" n) ∧
    ∀ before between after,
      subsequent
      = before ++ CheckStatus "job-1" :: between ++ CheckStatus "job-1" :: after →
      Sleep 3 ∈ between.
Proof.
  intros answers trace. split; [reflexivity|].
  apply (proj1 (poll_job_status_terminal_paced 3 "job-1" answers)
           (Build_JobStatus "finished") trace).
  reflexivity.
Defined.

(** The second query follows the first without a sleep, and a sleep
    follows the query that was answered with the terminal status. *)
Example poll_job_status_two_answers :
  poll_job_status 3 "job-1"
    [inr (Build_JobStatus "running"); inr (Build_JobStatus "failed")]
  = Some (inr (Build_JobStatus "failed"),
          [CheckStatus "job-1"; CheckStatus "job-1"; Sleep 3]).
Proof. reflexivity. Qed.

(** An error of a status query ends the polling at once. *)
Example poll_job_status_query_error :
  poll_job_status 3 "job-1"
    [inr (Build_JobStatus "running"); inl (OSError "connection refused");
     inr (Build_JobStatus "finished")]
  = Some (inl (OSError "connection refused"),
          [CheckStatus "job-1"; CheckStatus "job-1"]).
Proof. reflexivity. Qed.

(** * Further properties *)

(** ** More on the step range selection *)

Section selection_facts.
Variable lower : string → string.
Implicit Types (p : step → bool) (l : list step) (i j k : nat).

Lemma from_index_resolve l from_step :
  from_index lower l from_step = default 0 (resolve_step lower l from_step).
Proof.
  unfold from_index, resolve_step. by destruct (name_set from_step).
Qed.

Lemma target_index_resolve l target_step :
  target_index lower l target_step
  = default (length l) (S <$> resolve_step lower l target_step).
Proof.
  unfold target_index, resolve_step. by destruct (name_set target_step).
Qed.

Lemma resolve_step_lt l step_name i :
  resolve_step lower l step_name = Some i → i < length l.
Proof.
  unfold resolve_step. destruct (name_set step_name) as [wanted|]; [|done].
  simpl. apply first_position_lt.
Qed.

Lemma py_slice_lookup {A} (a b k : nat) (xs : list A) :
  a + k < b → py_slice a b xs !! k = xs !! (a + k).
Proof.
  intros Hk. unfold py_slice. rewrite lookup_drop. by apply lookup_take_lt.
Qed.

Lemma py_slice_length {A} (a b : nat) (xs : list A) :
  length (py_slice a b xs) = min b (length xs) - a.
Proof. unfold py_slice. by rewrite length_drop, length_take. Qed.

Lemma py_slice_full {A} (b : nat) (xs : list A) :
  length xs ≤ b → py_slice 0 b xs = xs.
Proof. intros Hb. unfold py_slice. by rewrite drop_0, take_ge. Qed.

Lemma py_slice_elem_of {A} (a b : nat) (xs : list A) (x : A) :
  x ∈ py_slice a b xs → x ∈ xs.
Proof.
  unfold py_slice. intros Hx%list_elem_of_lookup_1. destruct Hx as [k Hk].
  rewrite lookup_drop in Hk. apply lookup_take_Some in Hk as [Hk _].
  by eapply list_elem_of_lookup_2.
Qed.

Lemma first_position_ext p q l :
  (∀ s, p s = q s) → first_position p l = first_position q l.
Proof.
  intros Hpq. induction l as [|s l IH]; simpl; [done|].
  by rewrite Hpq, IH.
Qed.
End selection_facts.

(** The selected steps sit somewhere inside the step list. *)
Lemma get_targeted_workflow_steps_decompose
    (lower : string → string) (workflow_json : workflow)
    (target_step from_step : option string) :
  ∃ pre post,
    steps workflow_json
    = pre ++ get_targeted_workflow_steps lower workflow_json target_step from_step
          ++ post.
Proof.
  rewrite get_targeted_workflow_steps_unfold. case_bool_decide as Hle.
  - destruct (py_slice_contiguous
                (from_index lower (steps workflow_json) from_step)
                (target_index lower (steps workflow_json) target_step)
                (steps workflow_json) Hle (target_index_le _ _ _))
      as (pre & post & Heq & _).
    by exists pre, post.
  - exists [], []. by rewrite app_nil_r.
Qed.

(** X1. Whatever the names are, the steps [get_targeted_workflow_steps]
    returns are a contiguous part of the step list of the workflow, so
    every selected step is a step of the workflow and the selection is
    never longer than the workflow. *)
Theorem selection_contiguous
    (lower : string → string) (workflow_json : workflow)
    (target_step from_step : option string) :
  let selected :=
    get_targeted_workflow_steps lower workflow_json target_step from_step in
  (∃ pre post, steps workflow_json = pre ++ selected ++ post) ∧
  (∀ s, s ∈ selected → s ∈ steps workflow_json) ∧
  length selected ≤ length (steps workflow_json).
Proof.
  intros selected.
  destruct (get_targeted_workflow_steps_decompose
              lower workflow_json target_step from_step)
    as (pre & post & Hsteps).
  fold selected in Hsteps. split; [by exists pre, post|]. split.
  - intros s Hs. rewrite Hsteps. rewrite !elem_of_app. auto.
  - rewrite Hsteps, !length_app. lia.
Qed.

(** X2. When neither name resolves to a step (each is unset, or matches
    no step name), the whole step list is returned: a misspelt name runs
    the full workflow. *)
Theorem selection_defaults_to_all
    (lower : string → string) (workflow_json : workflow)
    (target_step from_step : option string) :
  resolve_step lower (steps workflow_json) from_step = None →
  resolve_step lower (steps workflow_json) target_step = None →
  get_targeted_workflow_steps lower workflow_json target_step from_step
  = steps workflow_json.
Proof.
  intros Hfrom Htarget. rewrite get_targeted_workflow_steps_unfold.
  rewrite from_index_resolve, target_index_resolve, Hfrom, Htarget. simpl.
  rewrite ?bool_decide_eq_true_2 by lia. by apply py_slice_full.
Qed.

Lemma selection_defaults_to_all_witness :
  resolve_step str_lower (steps (Workflow [step_gen; step_fit; step_plot]))
    (Some "fti") = None ∧
  resolve_step str_lower (steps (Workflow [step_gen; step_fit; step_plot]))
    None = None ∧
  get_targeted_workflow_steps str_lower
    (Workflow [step_gen; step_fit; step_plot]) None (Some "fti")
  = steps (Workflow [step_gen; step_fit; step_plot]).
Proof.
  split; [reflexivity|]. split; [reflexivity|].
  apply (selection_defaults_to_all str_lower
           (Workflow [step_gen; step_fit; step_plot]) None (Some "fti"));
    reflexivity.
Defined.

(** X3. When only the target name resolves, to position [j], the
    selection is the first [j + 1] steps: the workflow up to and including
    the target step. *)
Theorem selection_until_target
    (lower : string → string) (workflow_json : workflow)
    (target_step from_step : option string) (j : nat) :
  resolve_step lower (steps workflow_json) from_step = None →
  resolve_step lower (steps workflow_json) target_step = Some j →
  get_targeted_workflow_steps lower workflow_json target_step from_step
  = take (S j) (steps workflow_json).
Proof.
  intros Hfrom Htarget. rewrite get_targeted_workflow_steps_unfold.
  rewrite from_index_resolve, target_index_resolve, Hfrom, Htarget. simpl.
  done.
Qed.

Lemma selection_until_target_witness :
  resolve_step str_lower (steps (Workflow [step_gen; step_fit; step_plot]))
    None = None ∧
  resolve_step str_lower (steps (Workflow [step_gen; step_fit; step_plot]))
    (Some "FIT") = Some 1 ∧
  get_targeted_workflow_steps str_lower
    (Workflow [step_gen; step_fit; step_plot]) (Some "FIT") None
  = take 2 (steps (Workflow [step_gen; step_fit; step_plot])).
Proof.
  split; [reflexivity|]. split; [reflexivity|].
  apply (selection_until_target str_lower
           (Workflow [step_gen; step_fit; step_plot]) (Some "FIT") None 1);
    reflexivity.
Defined.

(** X4. When only the from name resolves, to position [i], the selection
    is the step list without its first [i] steps: the workflow from the
    from step to the end. *)
Theorem selection_from_step
    (lower : string → string) (workflow_json : workflow)
    (target_step from_step : option string) (i : nat) :
  resolve_step lower (steps workflow_json) from_step = Some i →
  resolve_step lower (steps workflow_json) target_step = None →
  get_targeted_workflow_steps lower workflow_json target_step from_step
  = drop i (steps workflow_json).
Proof.
  intros Hfrom Htarget. rewrite get_targeted_workflow_steps_unfold.
  rewrite from_index_resolve, target_index_resolve, Hfrom, Htarget. simpl.
  pose proof (resolve_step_lt _ _ _ _ Hfrom).
  rewrite ?bool_decide_eq_true_2 by lia.
  unfold py_slice. by rewrite take_ge.
Qed.

Lemma selection_from_step_witness :
  resolve_step str_lower (steps (Workflow [step_gen; step_fit; step_plot]))
    (Some "fit") = Some 1 ∧
  resolve_step str_lower (steps (Workflow [step_gen; step_fit; step_plot]))
    (Some "") = None ∧
  get_targeted_workflow_steps str_lower
    (Workflow [step_gen; step_fit; step_plot]) (Some "") (Some "fit")
  = drop 1 (steps (Workflow [step_gen; step_fit; step_plot])).
Proof.
  split; [reflexivity|]. split; [reflexivity|].
  apply (selection_from_step str_lower
           (Workflow [step_gen; step_fit; step_plot]) (Some "") (Some "fit") 1);
    reflexivity.
Defined.

(** X5. When the from name resolves to position [i] and the target name
    to a position [j] not before it, the selection has [j - i + 1] steps,
    it is the run of steps from position [i] to position [j], its first
    step is the from step and its last step is the target step. *)
Theorem selection_between
    (lower : string → string) (workflow_json : workflow)
    (target_step from_step : option string) (i j : nat) :
  resolve_step lower (steps workflow_json) from_step = Some i →
  resolve_step lower (steps workflow_json) target_step = Some j →
  i ≤ j →
  let selected :=
    get_targeted_workflow_steps lower workflow_json target_step from_step in
  length selected = S (j - i) ∧
  (∀ k, k ≤ j - i → selected !! k = steps workflow_json !! (i + k)) ∧
  head selected = steps workflow_json !! i ∧
  last selected = steps workflow_json !! j.
Proof.
  intros Hfrom Htarget Hij selected. subst selected.
  rewrite get_targeted_workflow_steps_unfold.
  rewrite from_index_resolve, target_index_resolve, Hfrom, Htarget. simpl.
  pose proof (resolve_step_lt _ _ _ _ Htarget) as Hj.
  rewrite ?bool_decide_eq_true_2 by lia.
  assert (length (py_slice i (S j) (steps workflow_json)) = S (j - i)) as Hlen.
  { rewrite py_slice_length. lia. }
  split; [done|]. split; [|split].
  - intros k Hk. apply py_slice_lookup. lia.
  - rewrite head_lookup, py_slice_lookup by lia. by rewrite Nat.add_0_r.
  - rewrite last_lookup, Hlen. simpl. rewrite py_slice_lookup by lia.
    f_equal. lia.
Qed.

Lemma selection_between_witness :
  resolve_step str_lower (steps (Workflow [step_gen; step_fit; step_plot]))
    (Some "fit") = Some 1 ∧
  resolve_step str_lower (steps (Workflow [step_gen; step_fit; step_plot]))
    (Some "PLOT") = Some 2 ∧
  1 ≤ 2 ∧
  let selected :=
    get_targeted_workflow_steps str_lower
      (Workflow [step_gen; step_fit; step_plot]) (Some "PLOT") (Some "fit") in
  length selected = S (2 - 1) ∧
  (∀ k, k ≤ 2 - 1 →
     selected !! k = steps (Workflow [step_gen; step_fit; step_plot]) !! (1 + k)) ∧
  head selected = steps (Workflow [step_gen; step_fit; step_plot]) !! 1 ∧
  last selected = steps (Workflow [step_gen; step_fit; step_plot]) !! 2.
Proof.
  split; [reflexivity|]. split; [reflexivity|]. split; [lia|].
  apply (selection_between str_lower
           (Workflow [step_gen; step_fit; step_plot])
           (Some "PLOT") (Some "fit") 1 2); [reflexivity|reflexivity|lia].
Defined.

(** X6. When the from name resolves to the position right after the one
    the target name resolves to, the selection is empty: the comparison
    of the two indices lets this inconsistent choice through, and no step
    is run. *)
Theorem selection_from_next_to_target_empty
    (lower : string → string) (workflow_json : workflow)
    (target_step from_step : option string) (j : nat) :
  resolve_step lower (steps workflow_json) from_step = Some (S j) →
  resolve_step lower (steps workflow_json) target_step = Some j →
  get_targeted_workflow_steps lower workflow_json target_step from_step = [].
Proof.
  intros Hfrom Htarget. rewrite get_targeted_workflow_steps_unfold.
  rewrite from_index_resolve, target_index_resolve, Hfrom, Htarget. simpl.
  rewrite ?bool_decide_eq_true_2 by lia.
  unfold py_slice. apply drop_ge. rewrite length_take. lia.
Qed.

Lemma selection_from_next_to_target_empty_witness :
  resolve_step str_lower (steps (Workflow [step_gen; step_fit; step_plot]))
    (Some "plot") = Some 2 ∧
  resolve_step str_lower (steps (Workflow [step_gen; step_fit; step_plot]))
    (Some "fit") = Some 1 ∧
  get_targeted_workflow_steps str_lower
    (Workflow [step_gen; step_fit; step_plot]) (Some "fit") (Some "plot") = [].
Proof.
  split; [reflexivity|]. split; [reflexivity|].
  apply (selection_from_next_to_target_empty str_lower
           (Workflow [step_gen; step_fit; step_plot])
           (Some "fit") (Some "plot") 1); reflexivity.
Defined.

Lemma resolve_step_same_case
    (lower : string → string) (l : list step) (a b : string) :
  a ≠ "" → b ≠ "" → lower a = lower b →
  resolve_step lower l (Some a) = resolve_step lower l (Some b).
Proof.
  intros Ha Hb Hab. unfold resolve_step. simpl.
  rewrite !bool_decide_eq_false_2 by done. simpl.
  apply first_position_ext. intros s. unfold name_matches. by rewrite Hab.
Qed.

(** X7. Step names are matched without regard to case: two non-empty
    from names, and two non-empty target names, that are equal once
    lowered select the same steps. *)
Theorem selection_ignores_case
    (lower : string → string) (workflow_json : workflow)
    (target_step target_step' from_step from_step' : string) :
  from_step ≠ "" → from_step' ≠ "" → lower from_step = lower from_step' →
  target_step ≠ "" → target_step' ≠ "" → lower target_step = lower target_step' →
  get_targeted_workflow_steps lower workflow_json
    (Some target_step) (Some from_step)
  = get_targeted_workflow_steps lower workflow_json
      (Some target_step') (Some from_step').
Proof.
  intros Hf Hf' Hfrom Ht Ht' Htarget.
  rewrite !get_targeted_workflow_steps_unfold.
  rewrite !from_index_resolve, !target_index_resolve.
  rewrite (resolve_step_same_case lower _ from_step from_step') by done.
  by rewrite (resolve_step_same_case lower _ target_step target_step').
Qed.

Lemma selection_ignores_case_witness :
  "Fit" ≠ "" ∧ "FIT" ≠ "" ∧ str_lower "Fit" = str_lower "FIT" ∧
  "plot" ≠ "" ∧ "Plot" ≠ "" ∧ str_lower "plot" = str_lower "Plot" ∧
  get_targeted_workflow_steps str_lower
    (Workflow [step_gen; step_fit; step_plot]) (Some "plot") (Some "Fit")
  = get_targeted_workflow_steps str_lower
      (Workflow [step_gen; step_fit; step_plot]) (Some "Plot") (Some "FIT").
Proof.
  split; [done|]. split; [done|]. split; [reflexivity|].
  split; [done|]. split; [done|]. split; [reflexivity|].
  apply (selection_ignores_case str_lower
           (Workflow [step_gen; step_fit; step_plot])
           "plot" "Plot" "Fit" "FIT"); done.
Defined.

Section selection_again.
Variable lower : string → string.
Implicit Types (l : list step).

(** In a slice that starts at the from index, the from index is 0. *)
Lemma from_index_of_slice l from_step b :
  from_index lower
    (py_slice (from_index lower l from_step) b l) from_step = 0.
Proof.
  set (a := from_index lower l from_step). set (r := py_slice a b l).
  unfold from_index at 1.
  destruct (name_set from_step) as [wanted|] eqn:Hset; [|done].
  destruct (first_position (name_matches lower wanted) r) as [k|] eqn:Hk;
    [|done].
  simpl. apply first_position_Some in Hk as [(s & Hs & Hmatch) Hmin].
  destruct k as [|k]; [done|]. exfalso.
  destruct (r !! 0) as [s0|] eqn:Hs0.
  2: { apply lookup_ge_None in Hs0. apply lookup_lt_Some in Hs. lia. }
  assert (name_matches lower wanted s0 = false) as Hs0false.
  { apply (Hmin 0); [lia|done]. }
  assert (s ∈ l) as Hsl.
  { apply (py_slice_elem_of a b). by eapply list_elem_of_lookup_2. }
  destruct (first_position (name_matches lower wanted) l) as [i|] eqn:Hi.
  2: { rewrite first_position_None in Hi. rewrite (Hi s Hsl) in Hmatch. done. }
  assert (a = i) as Ha.
  { unfold a, from_index. by rewrite Hset, Hi. }
  apply first_position_Some in Hi as [(si & Hsi & Hmatchi) _].
  unfold r, py_slice in Hs0. rewrite lookup_drop, Nat.add_0_r in Hs0.
  apply lookup_take_Some in Hs0 as [Hs0 _]. rewrite Ha in Hs0. congruence.
Qed.

(** In a slice that ends at the target index, the target index is the
    length of the slice. *)
Lemma target_index_of_slice l target_step a :
  target_index lower
    (py_slice a (target_index lower l target_step) l) target_step
  = length (py_slice a (target_index lower l target_step) l).
Proof.
  set (b := target_index lower l target_step). set (r := py_slice a b l).
  unfold target_index at 1.
  destruct (name_set target_step) as [wanted|] eqn:Hset; [|done].
  destruct (first_position (name_matches lower wanted) r) as [k|] eqn:Hk;
    [|done].
  simpl. pose proof (first_position_lt _ _ _ Hk) as Hklt.
  apply first_position_Some in Hk as [(s & Hs & Hmatch) _].
  assert (s ∈ l) as Hsl.
  { apply (py_slice_elem_of a b). by eapply list_elem_of_lookup_2. }
  destruct (first_position (name_matches lower wanted) l) as [j|] eqn:Hj.
  2: { rewrite first_position_None in Hj. rewrite (Hj s Hsl) in Hmatch. done. }
  assert (b = S j) as Hb.
  { unfold b, target_index. by rewrite Hset, Hj. }
  pose proof (first_position_lt _ _ _ Hj) as Hjlt.
  apply first_position_Some in Hj as [_ Hmin].
  unfold r in Hklt. rewrite py_slice_length in Hklt.
  unfold r in Hs. rewrite py_slice_lookup in Hs by lia.
  assert (¬ a + k < j) as Hge.
  { intros Hlt. rewrite (Hmin (a + k) s Hlt Hs) in Hmatch. done. }
  unfold r. rewrite py_slice_length. lia.
Qed.
End selection_again.

(** X8. Selecting again, with the same names, among the steps already
    selected changes nothing. *)
Theorem selection_idempotent
    (lower : string → string) (workflow_json : workflow)
    (target_step from_step : option string) :
  get_targeted_workflow_steps lower
    (Workflow (get_targeted_workflow_steps lower workflow_json
                 target_step from_step))
    target_step from_step
  = get_targeted_workflow_steps lower workflow_json target_step from_step.
Proof.
  rewrite (get_targeted_workflow_steps_unfold lower workflow_json).
  case_bool_decide as Hle.
  - rewrite get_targeted_workflow_steps_unfold. simpl.
    rewrite from_index_of_slice, target_index_of_slice.
    rewrite bool_decide_eq_true_2 by lia. by apply py_slice_full.
  - destruct workflow_json as [l]. simpl in *.
    rewrite get_targeted_workflow_steps_unfold. simpl.
    by rewrite bool_decide_eq_false_2.
Qed.

Lemma command_count_app (l1 l2 : list step) :
  command_count (l1 ++ l2) = command_count l1 + command_count l2.
Proof.
  unfold command_count. induction l1 as [|s l1 IH]; simpl; [done|].
  rewrite IH. lia.
Qed.

(** X9. The total that [publish_workflow_start] reports for the selected
    steps never exceeds the total it reports for the whole workflow. *)
Theorem selection_total_le
    {job_spec : Type} (environ : gmap string string) (lower : string → string)
    (workflow_json : workflow) (target_step from_step : option string)
    (workflow_uuid : string) (published : publisher job_spec) :
  ∃ total_selected total_all,
    event_total <$>
      last (snd (publish_workflow_start environ
                   (get_targeted_workflow_steps lower workflow_json
                      target_step from_step)
                   workflow_uuid published))
    = Some (Some total_selected) ∧
    event_total <$>
      last (snd (publish_workflow_start environ (steps workflow_json)
                   workflow_uuid published))
    = Some (Some total_all) ∧
    total_selected ≤ total_all.
Proof.
  destruct (get_targeted_workflow_steps_decompose
              lower workflow_json target_step from_step)
    as (pre & post & Hsteps).
  revert Hsteps.
  generalize (get_targeted_workflow_steps lower workflow_json
                target_step from_step).
  intros selected Hsteps.
  exists (command_count selected), (command_count (steps workflow_json)).
  unfold publish_workflow_start. run_M. rewrite !last_snoc. simpl.
  rewrite !foldl_command_count. simpl. split; [done|]. split; [done|].
  rewrite Hsteps, !command_count_app. lia.
Qed.

(** ** More on the progress events *)

(** X10. Every publisher function either publishes exactly one event,
    after the events already published and leaving them as they are, or
    raises and publishes nothing. *)
Theorem publishers_append_only
    {job_spec : Type} (environ : gmap string string)
    (job_id : string) (failed_job_id : option string) (spec : job_spec)
    (workflow_workspace : string) (workflow_json : workflow) (s : step)
    (step_number : nat) (command : string) (workflow_uuid : string)
    (cache_dir_path : option string) (workflow_steps : list step) :
  appends_one_or_raises (job_spec := job_spec)
    (publish_cache_copy job_id s workflow_json command workflow_uuid) ∧
  appends_one_or_raises (job_spec := job_spec)
    (publish_job_submission step_number command workflow_json job_id
       workflow_uuid) ∧
  appends_one_or_raises
    (publish_job_success environ job_id spec workflow_workspace workflow_json
       s command workflow_uuid cache_dir_path) ∧
  appends_one_or_raises (job_spec := job_spec)
    (publish_workflow_start environ workflow_steps workflow_uuid) ∧
  appends_one_or_raises (job_spec := job_spec)
    (publish_workflow_failure failed_job_id workflow_uuid).
Proof.
  repeat split; intros published.
  - unfold publish_cache_copy. run_M.
    destruct (last (steps workflow_json)) as [last_step|]; [|right; eauto].
    case_bool_decide; [|left; eauto].
    destruct (last (commands s)); [left; eauto|right; eauto].
  - left. unfold publish_job_submission. run_M. eauto.
  - unfold publish_job_success. run_M.
    destruct (last (steps workflow_json)) as [last_step|]; [|right; eauto].
    case_bool_decide; [|left; eauto].
    destruct (last (commands s)); [left; eauto|right; eauto].
  - left. unfold publish_workflow_start. run_M. eauto.
  - left. unfold publish_workflow_failure. run_M. eauto.
Qed.

(** X11. On the same workflow, step and command, [publish_job_success]
    and [publish_cache_copy] behave alike: either both raise the same
    exception, or both publish an event with the same workflow status. *)
Theorem publishers_same_status
    {job_spec : Type} (environ : gmap string string)
    (job_id job_id' : string) (spec : job_spec) (workflow_workspace : string)
    (workflow_json : workflow) (s : step) (command : string)
    (workflow_uuid : string) (cache_dir_path : option string)
    (published : publisher job_spec) :
  let success :=
    publish_job_success environ job_id spec workflow_workspace workflow_json
      s command workflow_uuid cache_dir_path published in
  let cache_copy :=
    publish_cache_copy job_id' s workflow_json command workflow_uuid published in
  fst success = fst cache_copy ∧
  ev_status <$> snd success = ev_status <$> snd cache_copy.
Proof.
  unfold publish_job_success, publish_cache_copy. run_M.
  destruct (last (steps workflow_json)) as [last_step|]; [|done].
  case_bool_decide.
  - destruct (last (commands s)); [|done]. simpl. by rewrite !fmap_app.
  - simpl. by rewrite !fmap_app.
Qed.

(** With pairwise different steps and commands, the value comparisons of
    the publisher amount to a comparison of positions. *)
Lemma publish_job_success_status_at_position
    {job_spec : Type} (environ : gmap string string)
    (job_id : string) (spec : job_spec) (workflow_workspace : string)
    (workflow_json : workflow) (i j : nat) (s : step) (command : string)
    (workflow_uuid : string) (cache_dir_path : option string)
    (published : publisher job_spec) :
  NoDup (steps workflow_json) → NoDup (commands s) →
  steps workflow_json !! i = Some s → commands s !! j = Some command →
  ∃ workflow_status msg,
    publish_job_success environ job_id spec workflow_workspace workflow_json
      s command workflow_uuid cache_dir_path published
    = (inr (), published ++ [Event workflow_uuid workflow_status msg]) ∧
    (workflow_status = 2 ↔
       S i = length (steps workflow_json) ∧ S j = length (commands s)) ∧
    (workflow_status = 1 ↔
       ¬ (S i = length (steps workflow_json) ∧ S j = length (commands s))).
Proof.
  intros Hsteps Hcommands Hi Hj.
  assert (steps workflow_json ≠ []) as Hne.
  { intros Hnil. by rewrite Hnil in Hi. }
  assert (last (steps workflow_json) = Some s → commands s ≠ []) as Hcmds.
  { intros _ Hnil. by rewrite Hnil in Hj. }
  destruct (publish_job_success_event environ job_id spec workflow_workspace
              workflow_json s command workflow_uuid cache_dir_path published
              Hne Hcmds) as [msg Hevent].
  exists (if is_final workflow_json s command then 2 else 1), msg.
  split; [done|].
  assert (is_final workflow_json s command = true ↔
          S i = length (steps workflow_json) ∧ S j = length (commands s))
    as Hfinal.
  { rewrite is_final_true, !last_lookup.
    pose proof (lookup_lt_Some _ _ _ Hi). pose proof (lookup_lt_Some _ _ _ Hj).
    split.
    - intros [Hlast Hlastc].
      pose proof (NoDup_lookup _ _ _ _ Hsteps Hi Hlast).
      pose proof (NoDup_lookup _ _ _ _ Hcommands Hj Hlastc). lia.
    - intros [Hi' Hj']. rewrite <- Hi', <- Hj'. simpl. done. }
  destruct (is_final workflow_json s command).
  - assert (S i = length (steps workflow_json) ∧ S j = length (commands s))
      as Hlast by (by apply Hfinal).
    split; [split; done|]. split; [done|]. intros Hnot. by destruct Hnot.
  - assert (¬ (S i = length (steps workflow_json) ∧ S j = length (commands s)))
      as Hnot by (intros Hlast; by apply Hfinal in Hlast).
    split; [|split; done]. split; [done|]. intros Hlast. by destruct Hnot.
Qed.

(** X12. In a workflow whose steps are pairwise different, for a step
    whose commands are pairwise different, the status published for the
    command at position [j] of the step at position [i] is 2 (finished)
    exactly when the step is the last of the workflow and the command the
    last of the step. *)
Theorem publish_job_success_finished_at_last_position
    {job_spec : Type} (environ : gmap string string)
    (job_id : string) (spec : job_spec) (workflow_workspace : string)
    (workflow_json : workflow) (i j : nat) (s : step) (command : string)
    (workflow_uuid : string) (cache_dir_path : option string)
    (published : publisher job_spec) :
  NoDup (steps workflow_json) → NoDup (commands s) →
  steps workflow_json !! i = Some s → commands s !! j = Some command →
  ∃ workflow_status msg,
    publish_job_success environ job_id spec workflow_workspace workflow_json
      s command workflow_uuid cache_dir_path published
    = (inr (), published ++ [Event workflow_uuid workflow_status msg]) ∧
    (workflow_status = 2 ↔
       S i = length (steps workflow_json) ∧ S j = length (commands s)) ∧
    (workflow_status = 1 ↔
       ¬ (S i = length (steps workflow_json) ∧ S j = length (commands s))).
Proof.
  apply publish_job_success_status_at_position.
Qed.

Lemma publish_job_success_finished_at_last_position_witness :
  NoDup (steps (Workflow [step_gen; step_fit])) ∧
  NoDup (commands step_fit) ∧
  steps (Workflow [step_gen; step_fit]) !! 1 = Some step_fit ∧
  commands step_fit !! 0 = Some "echo a" ∧
  ∃ workflow_status msg,
    publish_job_success (job_spec := unit) ∅ "job-1" () "/w"
      (Workflow [step_gen; step_fit]) step_fit "echo a" "uuid-1" None []
    = (inr (), [] ++ [Event "uuid-1" workflow_status msg]) ∧
    (workflow_status = 2 ↔
       2 = length (steps (Workflow [step_gen; step_fit])) ∧
       1 = length (commands step_fit)) ∧
    (workflow_status = 1 ↔
       ¬ (2 = length (steps (Workflow [step_gen; step_fit])) ∧
          1 = length (commands step_fit))).
Proof.
  assert (NoDup (steps (Workflow [step_gen; step_fit]))) as Hsteps.
  { apply (bool_decide_unpack (NoDup [step_gen; step_fit])). vm_compute. exact I. }
  assert (NoDup (commands step_fit)) as Hcommands.
  { apply (bool_decide_unpack (NoDup ["echo a"; "echo b"])). vm_compute. exact I. }
  split; [exact Hsteps|]. split; [exact Hcommands|].
  split; [reflexivity|]. split; [reflexivity|].
  exact (publish_job_success_finished_at_last_position (job_spec := unit)
           ∅ "job-1" () "/w" (Workflow [step_gen; step_fit]) 1 0 step_fit
           "echo a" "uuid-1" None [] Hsteps Hcommands eq_refl eq_refl).
Defined.

(** X13. Each publisher function fills only its own buckets of the
    progress message: a submission the running bucket, a success the
    finished bucket, a cache hit the finished and the cached bucket, a
    failure the failed bucket (none without a job id), the workflow start
    the total bucket, with the command count of the steps and no job id.
    A bucket of a job holds that job id alone, with count 1. *)
Theorem publishers_buckets
    {job_spec : Type} (environ : gmap string string)
    (job_id : string) (failed_job_id : option string) (spec : job_spec)
    (workflow_workspace : string) (workflow_json : workflow) (s : step)
    (step_number : nat) (command : string) (workflow_uuid : string)
    (cache_dir_path : option string) (workflow_steps : list step)
    (published : publisher job_spec) :
  let one := {| total := 1; job_ids := [job_id] |} in
  last_buckets
    (publish_job_submission step_number command workflow_json job_id
       workflow_uuid published)
  = Some [("running", one)] ∧
  (∀ outcome,
     outcome = publish_job_success environ job_id spec workflow_workspace
                 workflow_json s command workflow_uuid cache_dir_path published →
     fst outcome = inr () → last_buckets outcome = Some [("finished", one)]) ∧
  (∀ outcome,
     outcome = publish_cache_copy job_id s workflow_json command workflow_uuid
                 published →
     fst outcome = inr () →
     last_buckets outcome = Some [("finished", one); ("cached", one)]) ∧
  last_buckets (publish_workflow_failure failed_job_id workflow_uuid published)
  = Some match name_set failed_job_id with
         | Some id => [("failed", {| total := 1; job_ids := [id] |})]
         | None => []
         end ∧
  last_buckets (publish_workflow_start environ workflow_steps workflow_uuid published)
  = Some [("total", {| total := command_count workflow_steps; job_ids := [] |})].
Proof.
  intros one. split; [|split; [|split; [|split]]].
  - unfold publish_job_submission, last_buckets. run_M. by rewrite last_snoc.
  - intros outcome ->. unfold publish_job_success, last_buckets. run_M.
    destruct (last (steps workflow_json)) as [last_step|]; [|done].
    case_bool_decide; [destruct (last (commands s)); [|done]|];
      simpl; intros _; by rewrite last_snoc.
  - intros outcome ->. unfold publish_cache_copy, last_buckets. run_M.
    destruct (last (steps workflow_json)) as [last_step|]; [|done].
    case_bool_decide; [destruct (last (commands s)); [|done]|];
      simpl; intros _; by rewrite last_snoc.
  - unfold publish_workflow_failure, last_buckets. run_M. rewrite last_snoc.
    destruct failed_job_id as [id|]; simpl; [|done].
    by case_bool_decide.
  - unfold publish_workflow_start, last_buckets. run_M. rewrite last_snoc.
    simpl. by rewrite foldl_command_count.
Qed.

(** X14. When [publish_job_success] publishes, its message carries the
    caching information (job specification, job id, workspace, step and
    archive path) exactly when a non-empty [cache_dir_path] is given, and
    always carries the pod name read from the environment. *)
Theorem publish_job_success_caching_info
    {job_spec : Type} (environ : gmap string string)
    (job_id : string) (spec : job_spec) (workflow_workspace : string)
    (workflow_json : workflow) (s : step) (command : string)
    (workflow_uuid : string) (cache_dir_path : option string)
    (published published' : publisher job_spec) :
  publish_job_success environ job_id spec workflow_workspace workflow_json
    s command workflow_uuid cache_dir_path published
  = (inr (), published') →
  ∃ e,
    last published' = Some e ∧
    msg_caching_info (ev_message e)
    = build_caching_info_message spec job_id workflow_workspace s
        <$> name_set cache_dir_path ∧
    msg_pod_name (ev_message e) = Some (environ !! "WORKFLOW_POD_NAME").
Proof.
  unfold publish_job_success. run_M.
  assert (match cache_dir_path with
          | Some path =>
              if truthy_str cache_dir_path
              then Some (build_caching_info_message spec job_id
                           workflow_workspace s path)
              else None
          | None => None
          end
          = build_caching_info_message spec job_id workflow_workspace s
              <$> name_set cache_dir_path) as ->.
  { destruct cache_dir_path as [path|]; simpl; [|done]. by case_bool_decide. }
  destruct (last (steps workflow_json)) as [last_step|]; [|done].
  case_bool_decide; [destruct (last (commands s)); [|done]|];
    simpl; intros [= <-]; eexists; rewrite last_snoc; done.
Qed.

Lemma publish_job_success_caching_info_witness :
  ∃ published',
    publish_job_success (job_spec := unit) {[ "WORKFLOW_POD_NAME" := "pod-1" ]}
      "job-1" () "/w" (Workflow [step_gen; step_fit]) step_gen "make data"
      "uuid-1" (Some "/archive/job-1") []
    = (inr (), published') ∧
    ∃ e,
      last published' = Some e ∧
      msg_caching_info (ev_message e)
      = build_caching_info_message () "job-1" "/w" step_gen
          <$> name_set (Some "/archive/job-1") ∧
      msg_pod_name (ev_message e)
      = Some (({[ "WORKFLOW_POD_NAME" := "pod-1" ]} : gmap string string)
                !! "WORKFLOW_POD_NAME").
Proof.
  exists (snd (publish_job_success (job_spec := unit)
                 {[ "WORKFLOW_POD_NAME" := "pod-1" ]} "job-1" () "/w"
                 (Workflow [step_gen; step_fit]) step_gen "make data"
                 "uuid-1" (Some "/archive/job-1") [])).
  split; [reflexivity|].
  apply (publish_job_success_caching_info (job_spec := unit)
           {[ "WORKFLOW_POD_NAME" := "pod-1" ]} "job-1" () "/w"
           (Workflow [step_gen; step_fit]) step_gen "make data" "uuid-1"
           (Some "/archive/job-1") []).
  reflexivity.
Defined.

(** ** More on the cache lookup *)

(** X15. When [check_cache] returns, what it returns is truthy exactly
    when the parsed body has a truthy ["cached"] member; a truthy result
    is the body itself and a falsy result is the empty dictionary, so the
    caller can test the result for a hit. *)
Theorem check_cache_truthy_iff_hit
    {job_spec : Type} (check_if_cached_json : job_spec → step → string → result json)
    (job_spec_copy : job_spec) (s : step) (workflow_workspace : string)
    (body returned : json) :
  check_if_cached_json job_spec_copy s workflow_workspace = inr body →
  check_cache check_if_cached_json job_spec_copy s workflow_workspace
  = inr returned →
  (truthy returned = true ↔
     ∃ cached, subscript body "cached" = inr cached ∧ truthy cached = true) ∧
  (truthy returned = true → returned = body) ∧
  (truthy returned = false → returned = JObject ∅).
Proof.
  intros Hbody. unfold check_cache. rewrite Hbody.
  unfold mbind, result_bind, mret, result_ret.
  destruct (subscript body "cached") as [e|cached] eqn:Hcached; [done|].
  destruct body as [| | | | |members]; try done. simpl in Hcached.
  destruct (members !! "cached") as [x|] eqn:Hx; [|done].
  injection Hcached as ->.
  assert (truthy (JObject (∅ : gmap string json)) = false) as Hempty.
  { simpl. by rewrite map_size_empty. }
  destruct (truthy cached) eqn:Htruthy; intros [= <-].
  - assert (truthy (JObject members) = true) as Hhit.
    { simpl. rewrite bool_decide_eq_false_2; [done|].
      by apply (map_size_ne_0_lookup_2 _ "cached"). }
    rewrite Hhit. split; [|done]. split; [|done]. intros _. by exists cached.
  - rewrite Hempty. split; [|done]. split; [done|].
    intros (cached' & [= <-] & Ht). congruence.
Qed.

Lemma check_cache_truthy_iff_hit_witness :
  let body := JObject {[ "cached" := JBool true; "result_path" := JString "/archive/j0" ]} in
  (λ (_ : unit) (_ : step) (_ : string), inr body : result json) () step_fit "/w"
  = inr body ∧
  check_cache (λ _ _ _, inr body) () step_fit "/w" = inr body ∧
  (truthy body = true ↔
     ∃ cached, subscript body "cached" = inr cached ∧ truthy cached = true) ∧
  (truthy body = true → body = body) ∧
  (truthy body = false → body = JObject ∅).
Proof.
  intros body. split; [reflexivity|]. split; [reflexivity|].
  apply (check_cache_truthy_iff_hit (λ _ _ _, inr body) () step_fit "/w"
           body body); reflexivity.
Defined.

(** X16. [check_cache] returns without an exception exactly when the
    parsed body is a dictionary with a ["cached"] key; a body that is not
    a dictionary (null, a boolean, a number, a string or a list) makes it
    raise [TypeError]. *)
Theorem check_cache_raises
    {job_spec : Type} (check_if_cached_json : job_spec → step → string → result json)
    (job_spec_copy : job_spec) (s : step) (workflow_workspace : string)
    (body : json) :
  check_if_cached_json job_spec_copy s workflow_workspace = inr body →
  let outcome :=
    check_cache check_if_cached_json job_spec_copy s workflow_workspace in
  (is_error outcome = false ↔
     ∃ members, body = JObject members ∧ is_Some (members !! "cached")) ∧
  ((∀ members, body ≠ JObject members) → outcome = inl TypeError).
Proof.
  intros Hbody outcome. subst outcome. unfold check_cache. rewrite Hbody.
  unfold mbind, result_bind, mret, result_ret.
  destruct body as [| | | | |members]; simpl;
    try (split; [split; [done|by intros (? & ? & ?)]|done]).
  destruct (members !! "cached") as [cached|] eqn:Hcached.
  - split; [|intros Hno; by destruct (Hno members)].
    split; [intros _; by exists members|]. intros _. by destruct (truthy cached).
  - split; [|intros Hno; by destruct (Hno members)].
    split; [done|]. intros (members' & [= <-] & Hsome).
    rewrite Hcached in Hsome. by destruct Hsome.
Qed.

Lemma check_cache_raises_witness :
  (λ (_ : unit) (_ : step) (_ : string), inr (JArray []) : result json)
    () step_fit "/w"
  = inr (JArray []) ∧
  let outcome := check_cache (λ _ _ _, inr (JArray [])) () step_fit "/w" in
  (is_error outcome = false ↔
     ∃ members, JArray [] = JObject members ∧ is_Some (members !! "cached")) ∧
  ((∀ members, JArray [] ≠ JObject members) → outcome = inl TypeError).
Proof.
  split; [reflexivity|].
  apply (check_cache_raises (λ _ _ _, inr (JArray [])) () step_fit "/w"
           (JArray [])).
  reflexivity.
Defined.

(** ** The job specification *)

Lemma strip_prefix_append (pre rest : string) :
  Posix.strip_prefix pre (pre +:+ rest) = Some rest.
Proof.
  induction pre as [|c pre IH]; [by destruct rest|].
  change (String c pre +:+ rest) with (String c (pre +:+ rest)). simpl.
  by rewrite bool_decide_eq_true_2.
Qed.

(** X17. In every job specification [build_job_spec] builds, ["cmd"] is
    the command of ["prettified_cmd"] preceded by a change of directory
    into the workspace of ["workflow_workspace"]: removing the prefix
    [cd <workspace> && ] from ["cmd"] gives back the command. *)
Theorem build_job_spec_cmd
    (MOUNT_CVMFS job_name image compute_backend : json)
    (command workflow_workspace : string)
    (workflow_uuid kerberos unpacked_image kubernetes_uid
     kubernetes_memory_limit kubernetes_job_timeout voms_proxy rucio
     htcondor_max_runtime htcondor_accounting_group slurm_partition
     slurm_time : json) :
  let job_spec :=
    build_job_spec MOUNT_CVMFS job_name image compute_backend command
      workflow_workspace workflow_uuid kerberos unpacked_image kubernetes_uid
      kubernetes_memory_limit kubernetes_job_timeout voms_proxy rucio
      htcondor_max_runtime htcondor_accounting_group slurm_partition
      slurm_time in
  ∃ cmd,
    job_spec !! "cmd" = Some (JString cmd) ∧
    job_spec !! "prettified_cmd" = Some (JString command) ∧
    job_spec !! "workflow_workspace" = Some (JString workflow_workspace) ∧
    cmd = "cd " +:+ workflow_workspace +:+ " && " +:+ command ∧
    Posix.strip_prefix ("cd " +:+ workflow_workspace +:+ " && ") cmd
    = Some command.
Proof.
  intros job_spec. exists ("cd " +:+ workflow_workspace +:+ " && " +:+ command).
  split; [reflexivity|]. split; [reflexivity|]. split; [reflexivity|].
  split; [done|].
  rewrite <- (strip_prefix_append ("cd " +:+ workflow_workspace +:+ " && ") command).
  f_equal. change ("cd " +:+ workflow_workspace +:+ " && ")
    with (String "c" (String "d" (String " " (workflow_workspace +:+ " && ")))).
  change ("cd " +:+ workflow_workspace +:+ " && " +:+ command)
    with (String "c" (String "d" (String " " (workflow_workspace +:+ " && " +:+ command)))).
  change (String "c" (String "d" (String " " (workflow_workspace +:+ " && "))) +:+ command)
    with (String "c" (String "d" (String " " ((workflow_workspace +:+ " && ") +:+ command)))).
  by rewrite append_assoc.
Qed.

(** ** More on the cache persist *)

Lemma os_path_join_absolute_last (a : string) (p : list string) (b : string) :
  String.prefix "/" b = true → os_path_join a (p ++ [b]) = b.
Proof.
  intros Hb. unfold os_path_join. rewrite foldl_app. simpl.
  unfold join_component at 1. by rewrite Hb.
Qed.

(** X18. A job id that starts with a slash replaces the whole path that
    [os.path.join] builds: the archive [copy_workspace_to_cache] creates
    and returns is then the absolute path of the job id itself, not a
    directory under [<workspace>/../archive]. *)
Theorem copy_workspace_to_cache_absolute_job_id
    {os : OS} (job_id workflow_workspace : string) (w : world)
    (archive : string) (w2 : world) :
  String.prefix "/" job_id = true →
  copy_workspace_to_cache job_id workflow_workspace w = (inr archive, w2) →
  os_path_join workflow_workspace [os_pardir; "archive"; job_id] = job_id ∧
  archive = os_path_abspath job_id w ∧
  ∃ w1 copied,
    os_makedirs (os_path_abspath job_id w) w = (inr (), w1) ∧
    copy_tree workflow_workspace (os_path_abspath job_id w) w1 = (inr copied, w2).
Proof.
  intros Hjob.
  assert (os_path_join workflow_workspace [os_pardir; "archive"; job_id] = job_id)
    as Hjoin.
  { by apply (os_path_join_absolute_last _ [os_pardir; "archive"]). }
  unfold copy_workspace_to_cache. rewrite Hjoin.
  unfold mbind, M_bind, mret, M_ret.
  destruct (os_makedirs (os_path_abspath job_id w) w) as [[e|[]] w1]; [done|].
  destruct (copy_tree workflow_workspace (os_path_abspath job_id w) w1)
    as [[e|copied] w3] eqn:Hcopy; [done|].
  intros [= <- <-]. split; [done|]. split; [done|]. by exists w1, copied.
Qed.

Lemma copy_workspace_to_cache_absolute_job_id_witness :
  String.prefix "/" "/var/backup" = true ∧
  copy_workspace_to_cache "/var/backup" "/var/reana/workflows/w1" Posix.example_fs
  = (inr "/var/backup",
     snd (copy_workspace_to_cache "/var/backup" "/var/reana/workflows/w1"
            Posix.example_fs)) ∧
  os_path_join "/var/reana/workflows/w1" [os_pardir; "archive"; "/var/backup"]
  = "/var/backup" ∧
  "/var/backup" = os_path_abspath "/var/backup" Posix.example_fs ∧
  ∃ w1 copied,
    os_makedirs (os_path_abspath "/var/backup" Posix.example_fs) Posix.example_fs
    = (inr (), w1) ∧
    copy_tree "/var/reana/workflows/w1"
      (os_path_abspath "/var/backup" Posix.example_fs) w1
    = (inr copied,
       snd (copy_workspace_to_cache "/var/backup" "/var/reana/workflows/w1"
              Posix.example_fs)).
Proof.
  split; [reflexivity|].
  assert (copy_workspace_to_cache "/var/backup" "/var/reana/workflows/w1"
            Posix.example_fs
          = (inr "/var/backup",
             snd (copy_workspace_to_cache "/var/backup"
                    "/var/reana/workflows/w1" Posix.example_fs))) as Hrun.
  { vm_compute. reflexivity. }
  split; [exact Hrun|].
  exact (copy_workspace_to_cache_absolute_job_id "/var/backup"
           "/var/reana/workflows/w1" Posix.example_fs "/var/backup" _
           eq_refl Hrun).
Defined.

(** The file system of the example keeps what persisting twice relies on. *)
Lemma posix_foldr_insert_keeps
    (skip : string → bool) (place : string → string)
    (tree : list (string * Posix.node)) (m : gmap string Posix.node)
    (path : string) :
  is_Some (m !! path) →
  is_Some (foldr (λ '(rel, n) m',
                    if skip rel then m' else <[place rel := n]> m') m tree
             !! path).
Proof.
  intros Hm. induction tree as [|[rel n] tree IH]; simpl; [done|].
  destruct (skip rel); [done|].
  rewrite lookup_insert_is_Some'. by right.
Qed.

Lemma posix_copy_onto_keeps (src dst : string) (w : Posix.fs) (ok : bool)
    (m : gmap string Posix.node) (path : string) :
  is_Some (m !! path) →
  is_Some (snd (Posix.copy_onto src dst w (ok, m)) !! path).
Proof. intros Hm. unfold Posix.copy_onto. simpl. by apply posix_foldr_insert_keeps. Qed.

Lemma posix_copy_tree_world (src dst : string) (w1 w2 : Posix.fs)
    (r : result (list string)) :
  Posix.copy_tree_fs src dst w1 = (r, w2) →
  Posix.cwd w2 = Posix.cwd w1 ∧
  ∀ path, is_Some (Posix.nodes w1 !! path) → is_Some (Posix.nodes w2 !! path).
Proof.
  unfold Posix.copy_tree_fs. destruct (negb (Posix.isdir src w1)).
  { by intros [= _ <-]. }
  pose proof (posix_copy_onto_keeps src dst w1 true (Posix.nodes w1)) as Hkeeps.
  destruct (Posix.copy_onto src dst w1 (true, Posix.nodes w1)) as [ok m].
  simpl in Hkeeps. destruct ok; intros [= _ <-]; simpl; split; done.
Qed.

Lemma posix_makedirs_world (path : string) (w w1 : Posix.fs) (r : result unit) :
  Posix.makedirs path w = (r, w1) →
  Posix.cwd w1 = Posix.cwd w ∧
  (r = inr () → is_Some (Posix.nodes w1 !! path)).
Proof.
  unfold Posix.makedirs. destruct (Posix.exists_ path w).
  { by intros [= <- <-]. }
  destruct (existsb _ _).
  { by intros [= <- <-]. }
  intros [= <- <-]. simpl. split; [done|]. intros _.
  rewrite lookup_insert_is_Some'. by left.
Qed.

Lemma posix_persist_laws : OSPersistLaws Posix.posix.
Proof.
  constructor; simpl.
  - intros path w w1 Hmk. apply posix_makedirs_world in Hmk as [_ Hsome].
    unfold Posix.exists_. apply bool_decide_eq_true. by apply Hsome.
  - intros src dst path w1 r w2 Hcopy Hexists.
    apply posix_copy_tree_world in Hcopy as [_ Hkeeps].
    unfold Posix.exists_ in *. apply bool_decide_eq_true.
    apply Hkeeps. by apply bool_decide_eq_true in Hexists.
  - intros path q w r w1 Hmk. apply posix_makedirs_world in Hmk as [Hcwd _].
    unfold Posix.abspath. by rewrite Hcwd.
  - intros src dst q w1 r w2 Hcopy.
    apply posix_copy_tree_world in Hcopy as [Hcwd _].
    unfold Posix.abspath. by rewrite Hcwd.
Qed.

(** The path [os.path.join] builds for the archive of a job id that does
    not start with a slash, under a workspace path that is not empty. *)
Lemma os_path_join_archive_location (workflow_workspace job_id : string) :
  workflow_workspace ≠ "" → String.prefix "/" job_id = false →
  os_path_join workflow_workspace [os_pardir; "archive"; job_id]
  = archive_location workflow_workspace job_id.
Proof.
  intros Hne Hjob. unfold archive_location.
  destruct (ends_with_sep workflow_workspace) eqn:Hsep.
  - unfold os_path_join, os_pardir. simpl.
    assert (join_component workflow_workspace ".." = workflow_workspace +:+ "..")
      as ->.
    { unfold join_component. simpl. rewrite Hsep. by rewrite orb_true_r. }
    rewrite (join_component_relative _ "archive");
      [|apply append_nonempty|by rewrite ends_with_sep_append|done].
    rewrite append_assoc.
    change (".." +:+ "/" +:+ "archive") with "../archive".
    rewrite (join_component_relative _ job_id);
      [|apply append_nonempty|by rewrite ends_with_sep_append|done].
    by rewrite append_assoc.
  - by apply os_path_join_archive.
Qed.

(** C7, as stated, fails for a job id that starts with a slash: the
    archive is created at the job id itself and nothing is created at
    [<workspace>/../archive/<job_id>]. It fails too for the empty workspace
    path, which [os.path.join] leaves out: the archive directory is made
    relative to the current directory, not at [/../archive/<job_id>]. *)
Lemma copy_workspace_to_cache_archive_elsewhere :
  (let run :=
     copy_workspace_to_cache "/var/backup" "/var/reana/workflows/w1"
       Posix.example_fs in
   fst run = inr "/var/backup" ∧
   os_path_abspath (archive_location "/var/reana/workflows/w1" "/var/backup")
     Posix.example_fs
   = "/var/reana/workflows/archive/var/backup" ∧
   os_path_exists "/var/reana/workflows/archive/var/backup" (snd run) = false ∧
   os_path_exists "/var/backup" (snd run) = true) ∧
  (let inside :=
     {| Posix.cwd := "/var/reana/workflows";
        Posix.nodes := Posix.nodes Posix.example_fs |} in
   let run := copy_workspace_to_cache "job1" "" inside in
   os_path_abspath (archive_location "" "job1") inside = "/archive/job1" ∧
   os_path_exists "/archive/job1" (snd run) = false ∧
   os_path_exists "/var/reana/archive/job1" (snd run) = true).
Proof. repeat split; vm_compute; reflexivity. Qed.

(** C7, amended. For every workspace path that is not empty and every job
    id that does not start with a slash, on an operating system whose
    [os.makedirs] creates the directory it is given and raises
    [FileExistsError] when that directory exists, and whose [copy_tree]
    removes nothing: [copy_workspace_to_cache] takes as archive directory
    the absolute path of [<workspace>/../archive/<job_id>], creates it with
    [os.makedirs], copies the workspace tree into it with [copy_tree] and
    returns that path, the directory existing afterwards; it fails with
    [FileExistsError], before creating or copying anything, if the
    directory already exists. *)
Theorem copy_workspace_to_cache_archive
    {os : OS} (laws : OSLaws os) (persist_laws : OSPersistLaws os)
    (job_id workflow_workspace : string) (w : world) :
  workflow_workspace ≠ "" → String.prefix "/" job_id = false →
  let cache_dir_path :=
    os_path_abspath (archive_location workflow_workspace job_id) w in
  (os_path_exists cache_dir_path w = true →
     copy_workspace_to_cache job_id workflow_workspace w
     = (inl (FileExistsError cache_dir_path), w)) ∧
  (∀ w1 copied w2,
     os_makedirs cache_dir_path w = (inr (), w1) →
     copy_tree workflow_workspace cache_dir_path w1 = (inr copied, w2) →
     copy_workspace_to_cache job_id workflow_workspace w
     = (inr cache_dir_path, w2) ∧
     os_path_exists cache_dir_path w2 = true) ∧
  (∀ archive w2,
     copy_workspace_to_cache job_id workflow_workspace w = (inr archive, w2) →
     archive = cache_dir_path ∧
     os_path_exists cache_dir_path w2 = true ∧
     ∃ w1 copied,
       os_makedirs cache_dir_path w = (inr (), w1) ∧
       copy_tree workflow_workspace cache_dir_path w1 = (inr copied, w2)).
Proof.
  intros Hne Hjob cache_dir_path. unfold copy_workspace_to_cache.
  rewrite (os_path_join_archive_location _ _ Hne Hjob). fold cache_dir_path.
  unfold mbind, M_bind, mret, M_ret. split; [|split].
  - intros Hexists. by rewrite (os_makedirs_exists _ _ Hexists).
  - intros w1 copied w2 Hmk Hcopy. rewrite Hmk, Hcopy. split; [done|].
    eapply copy_tree_keeps; [exact Hcopy|]. by eapply os_makedirs_creates.
  - intros archive w2.
    destruct (os_makedirs cache_dir_path w) as [[e|[]] w1] eqn:Hmk; [done|].
    destruct (copy_tree workflow_workspace cache_dir_path w1) as [[e|copied] w3]
      eqn:Hcopy; [done|].
    intros [= <- <-]. split; [done|]. split.
    + eapply copy_tree_keeps; [exact Hcopy|]. by eapply os_makedirs_creates.
    + by exists w1, copied.
Qed.

Lemma copy_workspace_to_cache_archive_witness :
  OSLaws Posix.posix ∧ OSPersistLaws Posix.posix ∧
  "/var/reana/workflows/w1" ≠ "" ∧
  String.prefix "/" "job0" = false ∧ String.prefix "/" "job1" = false ∧
  copy_workspace_to_cache "job0" "/var/reana/workflows/w1" Posix.example_fs
  = (inl (FileExistsError "/var/reana/workflows/archive/job0"), Posix.example_fs) ∧
  (let run :=
     copy_workspace_to_cache "job1" "/var/reana/workflows/w1" Posix.example_fs in
   run = (inr "/var/reana/workflows/archive/job1", snd run) ∧
   os_path_exists "/var/reana/workflows/archive/job1" (snd run) = true ∧
   Posix.nodes (snd run) !! "/var/reana/workflows/archive/job1/code/fit.C"
   = Some (Posix.File "fit")).
Proof.
  split; [exact posix_laws|]. split; [exact posix_persist_laws|].
  split; [done|]. split; [reflexivity|]. split; [reflexivity|].
  assert ("/var/reana/workflows/w1" ≠ "") as Hne by done.
  split.
  - apply (proj1 (copy_workspace_to_cache_archive posix_laws posix_persist_laws
                    "job0" "/var/reana/workflows/w1" Posix.example_fs
                    Hne eq_refl)).
    vm_compute. reflexivity.
  - assert (copy_workspace_to_cache "job1" "/var/reana/workflows/w1"
              Posix.example_fs
            = (inr "/var/reana/workflows/archive/job1",
               snd (copy_workspace_to_cache "job1" "/var/reana/workflows/w1"
                      Posix.example_fs))) as Hrun.
    { vm_compute. reflexivity. }
    destruct (proj2 (proj2 (copy_workspace_to_cache_archive posix_laws
                posix_persist_laws "job1" "/var/reana/workflows/w1"
                Posix.example_fs Hne eq_refl)) _ _ Hrun)
      as (_ & Hexists & _).
    split; [exact Hrun|]. split; [exact Hexists|]. vm_compute. reflexivity.
Defined.

(** X19. Once [copy_workspace_to_cache] has created the archive directory
    of a job id, whether the copy of the workspace then succeeded or
    raised, calling it again for the same job id and workspace raises
    [FileExistsError] and changes nothing: the archive of a job is written
    at most once, and a failed copy is not undone. *)
Theorem copy_workspace_to_cache_once
    {os : OS} (laws : OSLaws os) (persist_laws : OSPersistLaws os)
    (job_id workflow_workspace : string) (w w1 w2 : world)
    (outcome : result string) :
  let cache_dir_path :=
    os_path_abspath
      (os_path_join workflow_workspace [os_pardir; "archive"; job_id]) w in
  os_makedirs cache_dir_path w = (inr (), w1) →
  copy_workspace_to_cache job_id workflow_workspace w = (outcome, w2) →
  os_path_exists cache_dir_path w2 = true ∧
  copy_workspace_to_cache job_id workflow_workspace w2
  = (inl (FileExistsError cache_dir_path), w2).
Proof.
  intros cache_dir_path Hmk. unfold copy_workspace_to_cache at 1.
  fold cache_dir_path. unfold mbind, M_bind, mret, M_ret. rewrite Hmk.
  destruct (copy_tree workflow_workspace cache_dir_path w1) as [r w3] eqn:Hcopy.
  intros Hrun.
  assert (w3 = w2) as -> by (destruct r; by injection Hrun).
  assert (os_path_exists cache_dir_path w2 = true) as Hexists.
  { eapply copy_tree_keeps; [exact Hcopy|]. by eapply os_makedirs_creates. }
  split; [done|].
  unfold copy_workspace_to_cache. unfold mbind, M_bind, mret, M_ret.
  rewrite (copy_tree_abspath _ _ _ _ _ _ Hcopy).
  rewrite (os_makedirs_abspath _ _ _ _ _ Hmk). fold cache_dir_path.
  by rewrite (os_makedirs_exists _ _ Hexists).
Qed.

Lemma copy_workspace_to_cache_once_witness :
  OSLaws Posix.posix ∧ OSPersistLaws Posix.posix ∧
  let w := Posix.example_fs in
  let cache_dir_path :=
    os_path_abspath
      (os_path_join "/var/reana/workflows/w1" [os_pardir; "archive"; "job1"]) w in
  let w1 := snd (os_makedirs cache_dir_path w) in
  let run := copy_workspace_to_cache "job1" "/var/reana/workflows/w1" w in
  os_makedirs cache_dir_path w = (inr (), w1) ∧
  run = (fst run, snd run) ∧
  os_path_exists cache_dir_path (snd run) = true ∧
  copy_workspace_to_cache "job1" "/var/reana/workflows/w1" (snd run)
  = (inl (FileExistsError cache_dir_path), snd run).
Proof.
  split; [exact posix_laws|]. split; [exact posix_persist_laws|].
  intros w cache_dir_path w1 run.
  assert (os_makedirs cache_dir_path w = (inr (), w1)) as Hmk.
  { vm_compute. reflexivity. }
  assert (run = (fst run, snd run)) as Hrun by (by destruct run).
  split; [exact Hmk|]. split; [exact Hrun|].
  exact (copy_workspace_to_cache_once posix_laws posix_persist_laws "job1"
           "/var/reana/workflows/w1" w w1 (snd run) (fst run) Hmk Hrun).
Defined.

(** ** More on the polling *)

Section polling_more.
Context {duration : Type}.
Variable JOB_STATUS_POLLING_INTERVAL : duration.
Implicit Types (answers : list (result JobStatus))
  (trace : list (io_event duration)) (n : nat).

Lemma count_queries_app trace trace' :
  count_queries (trace ++ trace') = count_queries trace + count_queries trace'.
Proof.
  induction trace as [|[id|d] trace IH]; simpl; [done| |done]. by rewrite IH.
Qed.

Lemma count_sleeps_app trace trace' :
  count_sleeps (trace ++ trace') = count_sleeps trace + count_sleeps trace'.
Proof.
  induction trace as [|[id|d] trace IH]; simpl; [done|done|]. by rewrite IH.
Qed.

Lemma count_poll_rounds job_id n :
  count_queries (poll_rounds JOB_STATUS_POLLING_INTERVAL job_id n) = n ∧
  count_sleeps (poll_rounds JOB_STATUS_POLLING_INTERVAL job_id n) = n.
Proof. induction n as [|n [IHq IHs]]; simpl; [done|]. by rewrite IHq, IHs. Qed.

Lemma last_poll_rounds job_id n x :
  last (x :: poll_rounds JOB_STATUS_POLLING_INTERVAL job_id (S n))
  = Some (Sleep JOB_STATUS_POLLING_INTERVAL).
Proof.
  revert x. induction n as [|n IH]; intros x; [done|].
  change (poll_rounds JOB_STATUS_POLLING_INTERVAL job_id (S (S n)))
    with (CheckStatus job_id :: Sleep JOB_STATUS_POLLING_INTERVAL
            :: poll_rounds JOB_STATUS_POLLING_INTERVAL job_id (S n)).
  rewrite !last_cons_cons. apply IH.
Qed.

(** A query that raises ends the loop with the exception. *)
Lemma poll_loop_raises job_id job_status (pending : list JobStatus) e answers trace :
  Forall (λ js, terminal js = false) (job_status :: pending) →
  poll_loop JOB_STATUS_POLLING_INTERVAL job_id job_status
    ((inr <$> pending) ++ inl e :: answers) trace
  = Some (inl e,
          trace ++ poll_rounds JOB_STATUS_POLLING_INTERVAL job_id (length pending)
                ++ [CheckStatus job_id]).
Proof.
  revert job_status trace.
  induction pending as [|js pending IH]; intros job_status trace Hpending.
  - apply Forall_cons in Hpending as [Hjs _]. simpl. by rewrite Hjs.
  - apply Forall_cons in Hpending as [Hjs Hpending]. simpl. rewrite Hjs.
    rewrite IH by done. by rewrite <- app_assoc.
Qed.

(** The loop is still running exactly when every answer so far was a
    status that is not terminal. *)
Lemma poll_loop_None job_id job_status answers trace :
  poll_loop JOB_STATUS_POLLING_INTERVAL job_id job_status answers trace = None ↔
  terminal job_status = false ∧
  ∃ pending, answers = inr <$> pending ∧ Forall (λ js, terminal js = false) pending.
Proof.
  revert job_status trace.
  induction answers as [|[e|js] answers IH]; intros job_status trace; simpl;
    destruct (terminal job_status) eqn:Hterminal.
  - split; [done|]. by intros [? _].
  - split; [|done]. intros _. split; [done|]. by exists [].
  - split; [done|]. by intros [? _].
  - split; [done|]. intros [_ (pending & Heq & _)]. by destruct pending.
  - split; [done|]. by intros [? _].
  - rewrite IH. split.
    + intros [Hjs (pending & -> & Hpending)]. split; [done|].
      exists (js :: pending). split; [done|]. by apply Forall_cons.
    + intros [_ (pending & Heq & Hpending)].
      destruct pending as [|js' pending]; [done|].
      injection Heq as -> ->. apply Forall_cons in Hpending as [Hjs Hpending].
      split; [done|]. by exists pending.
Qed.
End polling_more.

(** X20. When the job controller answers with [n] statuses that are not
    terminal and then with a terminal one, [poll_job_status] returns that
    first terminal status after [n + 1] queries and [n] sleeps, whatever
    answers would have followed; unless the very first answer is terminal,
    the last thing it does before returning is to sleep. *)
Theorem poll_job_status_cost
    {duration : Type} (JOB_STATUS_POLLING_INTERVAL : duration)
    (job_id : string) (pending : list JobStatus) (returned : JobStatus)
    (later : list (result JobStatus)) :
  Forall (λ job_status, terminal job_status = false) pending →
  terminal returned = true →
  ∃ trace,
    poll_job_status JOB_STATUS_POLLING_INTERVAL job_id
      ((inr <$> pending) ++ inr returned :: later)
    = Some (inr returned, trace) ∧
    count_queries trace = S (length pending) ∧
    count_sleeps trace = length pending ∧
    (pending ≠ [] → last trace = Some (Sleep JOB_STATUS_POLLING_INTERVAL)).
Proof.
  intros Hpending Hterminal.
  exists (CheckStatus job_id
            :: poll_rounds JOB_STATUS_POLLING_INTERVAL job_id (length pending)).
  split; [by apply poll_job_status_returns|].
  destruct (count_poll_rounds JOB_STATUS_POLLING_INTERVAL job_id (length pending))
    as [Hq Hs].
  simpl. rewrite Hq, Hs. split; [done|]. split; [done|].
  intros Hne. destruct pending as [|js pending]; [done|].
  apply last_poll_rounds.
Qed.

Lemma poll_job_status_cost_witness :
  let pending := [Build_JobStatus "queued"; Build_JobStatus "running"] in
  Forall (λ job_status, terminal job_status = false) pending ∧
  terminal (Build_JobStatus "stopped") = true ∧
  ∃ trace,
    poll_job_status 3 "job-1"
      ((inr <$> pending) ++ inr (Build_JobStatus "stopped")
         :: [inr (Build_JobStatus "finished")])
    = Some (inr (Build_JobStatus "stopped"), trace) ∧
    count_queries trace = S (length pending) ∧
    count_sleeps trace = length pending ∧
    (pending ≠ [] → last trace = Some (Sleep 3)).
Proof.
  intros pending.
  assert (Forall (λ job_status, terminal job_status = false) pending) as Hpending.
  { repeat constructor. }
  split; [exact Hpending|]. split; [reflexivity|].
  exact (poll_job_status_cost 3 "job-1" pending (Build_JobStatus "stopped")
           [inr (Build_JobStatus "finished")] Hpending eq_refl).
Defined.

(** X21. When a status query raises after [n] answers that are not
    terminal, [poll_job_status] raises the same exception at once: the
    failed query is its last action, it is not retried and no sleep
    follows it. *)
Theorem poll_job_status_query_error_propagates
    {duration : Type} (JOB_STATUS_POLLING_INTERVAL : duration)
    (job_id : string) (pending : list JobStatus) (e : exn)
    (later : list (result JobStatus)) :
  Forall (λ job_status, terminal job_status = false) pending →
  ∃ trace,
    poll_job_status JOB_STATUS_POLLING_INTERVAL job_id
      ((inr <$> pending) ++ inl e :: later)
    = Some (inl e, trace) ∧
    count_queries trace = S (length pending) ∧
    count_sleeps trace = length pending - 1 ∧
    last trace = Some (CheckStatus job_id).
Proof.
  intros Hpending. destruct pending as [|js pending]; simpl.
  - exists [CheckStatus job_id]. done.
  - rewrite poll_loop_raises by done. eexists. split; [done|].
    destruct (count_poll_rounds JOB_STATUS_POLLING_INTERVAL job_id (length pending))
      as [Hq Hs].
    simpl. rewrite count_queries_app, count_sleeps_app, Hq, Hs. simpl.
    split; [lia|]. split; [lia|].
    rewrite app_comm_cons, last_snoc. done.
Qed.

Lemma poll_job_status_query_error_propagates_witness :
  let pending := [Build_JobStatus "queued"; Build_JobStatus "running"] in
  Forall (λ job_status, terminal job_status = false) pending ∧
  ∃ trace,
    poll_job_status 3 "job-1"
      ((inr <$> pending) ++ inl (OSError "timeout")
         :: [inr (Build_JobStatus "finished")])
    = Some (inl (OSError "timeout"), trace) ∧
    count_queries trace = S (length pending) ∧
    count_sleeps trace = length pending - 1 ∧
    last trace = Some (CheckStatus "job-1").
Proof.
  intros pending.
  assert (Forall (λ job_status, terminal job_status = false) pending) as Hpending.
  { repeat constructor. }
  split; [exact Hpending|].
  exact (poll_job_status_query_error_propagates 3 "job-1" pending
           (OSError "timeout") [inr (Build_JobStatus "finished")] Hpending).
Defined.

(** X22. [poll_job_status] has no limit on the number of queries: it is
    still polling after the answers given exactly when every one of them
    was a status that is not terminal, however many there were. *)
Theorem poll_job_status_keeps_polling
    {duration : Type} (JOB_STATUS_POLLING_INTERVAL : duration)
    (job_id : string) (answers : list (result JobStatus)) :
  poll_job_status JOB_STATUS_POLLING_INTERVAL job_id answers = None ↔
  ∃ pending,
    answers = inr <$> pending ∧
    Forall (λ job_status, terminal job_status = false) pending.
Proof.
  unfold poll_job_status. destruct answers as [|[e|js] answers].
  - split; [|done]. intros _. by exists [].
  - split; [done|]. intros (pending & Heq & _). by destruct pending.
  - rewrite poll_loop_None. split.
    + intros [Hjs (pending & -> & Hpending)].
      exists (js :: pending). split; [done|]. by apply Forall_cons.
    + intros (pending & Heq & Hpending).
      destruct pending as [|js' pending]; [done|].
      injection Heq as -> ->. apply Forall_cons in Hpending as [Hjs Hpending].
      split; [done|]. by exists pending.
Qed.

(** ** More on the publishers and their callers *)

(** X23. [publish_job_success] and [publish_cache_copy] raise exactly
    when the workflow has no step, or when the given step equals the last
    step and has no command; the exception is then [IndexError]. *)
Theorem publishers_raise_iff
    {job_spec : Type} (environ : gmap string string)
    (job_id : string) (spec : job_spec) (workflow_workspace : string)
    (workflow_json : workflow) (s : step) (command : string)
    (workflow_uuid : string) (cache_dir_path : option string)
    (published : publisher job_spec) :
  let success :=
    publish_job_success environ job_id spec workflow_workspace workflow_json
      s command workflow_uuid cache_dir_path published in
  let cache_copy :=
    publish_cache_copy job_id s workflow_json command workflow_uuid published in
  let no_last :=
    steps workflow_json = [] ∨
    (last (steps workflow_json) = Some s ∧ commands s = []) in
  (success = (inl IndexError, published) ↔ no_last) ∧
  (cache_copy = (inl IndexError, published) ↔ no_last) ∧
  (is_error (fst success) = true ↔ no_last) ∧
  (is_error (fst cache_copy) = true ↔ no_last).
Proof.
  unfold publish_job_success, publish_cache_copy. run_M.
  destruct (last (steps workflow_json)) as [last_step|] eqn:Hlast.
  - assert (steps workflow_json ≠ []) as Hne.
    { intros Hnil. by rewrite Hnil in Hlast. }
    case_bool_decide as Hs.
    + subst last_step. destruct (last (commands s)) as [c|] eqn:Hc.
      * assert (commands s ≠ []) as Hcne.
        { intros Hnil. by rewrite Hnil in Hc. }
        simpl. repeat split; try done; intros [?|[_ ?]]; done.
      * apply last_None in Hc. simpl.
        repeat split; try done; intros _; right; done.
    + simpl. repeat split; try done; intros [?|[[= ?] _]]; done.
  - apply last_None in Hlast. simpl.
    repeat split; try done; intros _; by left.
Qed.

Lemma py_slice_one {A} (i : nat) (xs : list A) (x : A) :
  xs !! i = Some x → py_slice i (S i) xs = [x].
Proof.
  intros Hx. unfold py_slice. rewrite (take_S_r _ _ _ Hx).
  apply drop_app_length'. rewrite length_take.
  apply lookup_lt_Some in Hx. lia.
Qed.

(** X24. When the from name and the target name resolve to the same
    position, the selection is that one step: of several steps with the
    same name the first is the one that counts. *)
Theorem selection_single_step
    (lower : string → string) (workflow_json : workflow)
    (target_step from_step : option string) (i : nat) (s : step) :
  resolve_step lower (steps workflow_json) from_step = Some i →
  resolve_step lower (steps workflow_json) target_step = Some i →
  steps workflow_json !! i = Some s →
  get_targeted_workflow_steps lower workflow_json target_step from_step = [s].
Proof.
  intros Hfrom Htarget Hs. rewrite get_targeted_workflow_steps_unfold.
  rewrite from_index_resolve, target_index_resolve, Hfrom, Htarget. simpl.
  rewrite ?bool_decide_eq_true_2 by lia. by apply py_slice_one.
Qed.

Lemma selection_single_step_witness :
  let workflow_json := Workflow [step_gen; step_fit; step_plot; step_fit] in
  resolve_step str_lower (steps workflow_json) (Some "fit") = Some 1 ∧
  resolve_step str_lower (steps workflow_json) (Some "FIT") = Some 1 ∧
  steps workflow_json !! 1 = Some step_fit ∧
  get_targeted_workflow_steps str_lower workflow_json (Some "FIT") (Some "fit")
  = [step_fit].
Proof.
  intros workflow_json.
  split; [reflexivity|]. split; [reflexivity|]. split; [reflexivity|].
  apply (selection_single_step str_lower workflow_json
           (Some "FIT") (Some "fit") 1 step_fit); reflexivity.
Defined.

(** X25. The command [copy_workspace_from_cache] hands to the shell is
    [cp -R <result_path>/* <workspace>] for a result path that is not empty
    and does not end with a slash; a result path ending with a slash gets
    no second slash; for the empty result path the command is
    [cp -R * <workspace>], which copies from the current directory. *)
Theorem copy_workspace_from_cache_command
    {os : OS} (result_path workflow_workspace : string) (w : world) :
  let restored := copy_workspace_from_cache result_path workflow_workspace w in
  let ran command := restored = (inr (), snd (os_system command w)) in
  (result_path ≠ "" → ends_with_sep result_path = false →
     ran ("cp -R " +:+ result_path +:+ "/* " +:+ workflow_workspace)) ∧
  (ends_with_sep result_path = true →
     ran ("cp -R " +:+ result_path +:+ "* " +:+ workflow_workspace)) ∧
  (result_path = "" → ran ("cp -R * " +:+ workflow_workspace)).
Proof.
  intros restored ran. subst ran restored. unfold copy_workspace_from_cache.
  assert (∀ pattern,
            os_path_join result_path ["*"] = pattern →
            (let '(_, w') :=
               os_system ("cp -R " +:+ os_path_join result_path ["*"]
                          +:+ " " +:+ workflow_workspace) w in
             (inr (), w') : result unit * world)
            = (inr (), snd (os_system ("cp -R " +:+ pattern +:+ " "
                                        +:+ workflow_workspace) w))) as Hrun.
  { intros pattern ->. by destruct (os_system _ w). }
  split; [|split].
  - intros Hne Hsep. rewrite (Hrun (result_path +:+ "/*")).
    + do 3 f_equal. change ("cp -R " +:+ ?x) with (String "c" (String "p"
        (String " " (String "-" (String "R" (String " " x)))))).
      do 6 f_equal. by rewrite append_assoc.
    + by apply os_path_join_star.
  - intros Hsep. rewrite (Hrun (result_path +:+ "*")).
    + do 3 f_equal. change ("cp -R " +:+ ?x) with (String "c" (String "p"
        (String " " (String "-" (String "R" (String " " x)))))).
      do 6 f_equal. by rewrite append_assoc.
    + unfold os_path_join, join_component. simpl. rewrite Hsep.
      by rewrite orb_true_r.
  - intros ->. by rewrite (Hrun "*").
Qed.

(** X26. For a workflow whose steps are pairwise different and a selected
    step whose commands are pairwise different, publishing against the
    selected steps the success of the command at position [j] of that
    step, the selected step at position [i], gives status 2 (finished)
    exactly at the last command of the last selected step. *)
Theorem selection_then_success_finished_at_last
    {job_spec : Type} (environ : gmap string string) (lower : string → string)
    (workflow_json : workflow) (target_step from_step : option string)
    (job_id : string) (spec : job_spec) (workflow_workspace : string)
    (i j : nat) (s : step) (command : string)
    (workflow_uuid : string) (cache_dir_path : option string)
    (published : publisher job_spec) :
  let selected :=
    get_targeted_workflow_steps lower workflow_json target_step from_step in
  NoDup (steps workflow_json) → NoDup (commands s) →
  selected !! i = Some s → commands s !! j = Some command →
  ∃ workflow_status msg,
    publish_job_success environ job_id spec workflow_workspace
      (Workflow selected) s command workflow_uuid cache_dir_path published
    = (inr (), published ++ [Event workflow_uuid workflow_status msg]) ∧
    (workflow_status = 2 ↔
       S i = length selected ∧ S j = length (commands s)) ∧
    (workflow_status = 1 ↔
       ¬ (S i = length selected ∧ S j = length (commands s))).
Proof.
  intros selected Hsteps Hcommands Hi Hj.
  destruct (get_targeted_workflow_steps_decompose
              lower workflow_json target_step from_step)
    as (pre & post & Hdecompose).
  fold selected in Hdecompose.
  assert (NoDup selected) as Hselected.
  { rewrite Hdecompose in Hsteps.
    apply NoDup_app in Hsteps as (_ & _ & Hsteps).
    by apply NoDup_app in Hsteps as (Hsteps & _ & _). }
  by apply (publish_job_success_status_at_position environ job_id spec
              workflow_workspace (Workflow selected) i j).
Qed.

Lemma selection_then_success_finished_at_last_witness :
  let workflow_json := Workflow [step_gen; step_fit; step_plot] in
  let selected :=
    get_targeted_workflow_steps str_lower workflow_json (Some "fit") None in
  NoDup (steps workflow_json) ∧ NoDup (commands step_fit) ∧
  selected !! 1 = Some step_fit ∧ commands step_fit !! 1 = Some "echo b" ∧
  ∃ workflow_status msg,
    publish_job_success (job_spec := unit) ∅ "job-3" () "/w"
      (Workflow selected) step_fit "echo b" "uuid-1" None []
    = (inr (), [] ++ [Event "uuid-1" workflow_status msg]) ∧
    (workflow_status = 2 ↔
       2 = length selected ∧ 2 = length (commands step_fit)) ∧
    (workflow_status = 1 ↔
       ¬ (2 = length selected ∧ 2 = length (commands step_fit))).
Proof.
  intros workflow_json selected.
  assert (NoDup (steps workflow_json)) as Hsteps.
  { apply (bool_decide_unpack (NoDup [step_gen; step_fit; step_plot])).
    vm_compute. exact I. }
  assert (NoDup (commands step_fit)) as Hcommands.
  { apply (bool_decide_unpack (NoDup ["echo a"; "echo b"])). vm_compute. exact I. }
  split; [exact Hsteps|]. split; [exact Hcommands|].
  split; [reflexivity|]. split; [reflexivity|].
  exact (selection_then_success_finished_at_last (job_spec := unit) ∅ str_lower
           workflow_json (Some "fit") None "job-3" () "/w" 1 1 step_fit
           "echo b" "uuid-1" None [] Hsteps Hcommands eq_refl eq_refl).
Defined.
